(** * aleo-explorer: [db/util.py]

    A shallow embedding of [DatabaseUtil] (src/db/util.py): the address
    collector [get_addresses_from_struct] and the checkpoint revert
    [revert_to_last_backup], together with the properties the
    specification states about them.

    Layout: the value trees and the address collector; the relational
    tables and the statements the revert executes on them; the cache
    store; a state-and-exception monad threading both stores, the signal
    mask and the sequence of effects; the revert itself, phase by phase in
    the order of the source; then the theorems. *)

From Stdlib Require Import Ascii.
From Stdlib Require OrderedTypeEx.
From Stdlib.Strings Require Byte.
From stdpp Require Import gmap strings list sorting pretty.

Open Scope Z_scope.

(** ** Value trees ([aleo_types], as far as util.py looks into them) *)

Module Plaintexts.

(** [Literal.Type]: the source names the [Address] member only. *)
Inductive LiteralType := Address | OtherType (tag : nat).

Global Instance LiteralType_eq_dec : EqDecision LiteralType.
Proof. solve_decision. Defined.

(** A primitive is used through [str(...)] alone. *)
Record Primitive := { str : string }.

Record Literal := { type : LiteralType; primitive : Primitive }.

Definition Identifier := string.

#[warnings="-register-all"] Inductive Plaintext :=
| LiteralPlaintext (literal : Literal)
| StructPlaintext (members : list (Identifier * Plaintext))
| ArrayPlaintext (elements : list Plaintext).

(** util.py 15-23.  The argument is annotated [StructPlaintext]; the loop
    over [plaintext.members] is the inner [fix], the accumulator is the
    Python local [addresses].  The other two constructors have no
    [members] to iterate. *)
Fixpoint get_addresses_from_struct (plaintext : Plaintext) : gset string :=
  match plaintext with
  | StructPlaintext members =>
      (fix loop (addresses : gset string) (ms : list (Identifier * Plaintext)) :=
         match ms with
         | [] => addresses
         | (_, p) :: rest =>
             match p with
             | LiteralPlaintext l =>
                 if decide (type l = Address)
                 then loop (addresses ∪ {[ str (primitive l) ]}) rest
                 else loop addresses rest
             | StructPlaintext _ =>
                 loop (addresses ∪ get_addresses_from_struct p) rest
             | ArrayPlaintext _ => loop addresses rest
             end
         end) ∅ members
  | LiteralPlaintext _ | ArrayPlaintext _ => ∅
  end.

(** What the collector is meant to return, stated without reference to the
    loop: [s] is the rendering of an address literal that is a member of
    the struct, or of a struct nested in it through struct members. *)
Inductive address_of_struct : list (Identifier * Plaintext) → string → Prop :=
| address_member name l ms :
    (name, LiteralPlaintext l) ∈ ms →
    type l = Address →
    address_of_struct ms (str (primitive l))
| address_nested name inner ms s :
    (name, StructPlaintext inner) ∈ ms →
    address_of_struct inner s →
    address_of_struct ms s.

(** What one member adds to the result. *)
Definition member_addresses (p : Plaintext) : gset string :=
  match p with
  | LiteralPlaintext l => if decide (type l = Address) then {[ str (primitive l) ]} else ∅
  | StructPlaintext _ => get_addresses_from_struct p
  | ArrayPlaintext _ => ∅
  end.

End Plaintexts.

(** ** Ledger objects ([aleo_types], as far as the revert reads them) *)

Module Ledger.

(** A transition is read through [program_id] and [function_name], both
    rendered with [str]. *)
Record Transition := { program_id : string; function_name : string }.

Record Fee := { transition : Transition }.

Record Execution := { transitions : list Transition }.

(** [t.deployment.program.id], rendered with [str]. *)
Record Deployment := { program : string }.

(** The three transaction shapes the revert tells apart with
    [isinstance]; every one carries its [id]. *)
Inductive Transaction :=
| ExecuteTransaction (id : string) (execution : Execution) (additional_fee : option Fee)
| DeployTransaction (id : string) (deployment : Deployment) (fee : Fee)
| FeeTransaction (id : string) (fee : Fee).

Definition id (t : Transaction) : string :=
  match t with
  | ExecuteTransaction i _ _ | DeployTransaction i _ _ | FeeTransaction i _ => i
  end.

(** The payload of a rejected confirmed transaction. *)
Inductive Rejected :=
| RejectedDeployment
| RejectedExecution (execution : Execution).

(** Modelled from the spec: the confirmed-transaction classes are declared
    in aleo_types, outside the source file; section 3 gives the variants
    {Accepted, RejectedDeploy, RejectedExecute}, each wrapping one
    transaction, the rejected ones carrying a rejection payload. *)
Inductive ConfirmedTransaction :=
| Accepted (transaction : Transaction)
| RejectedDeploy (transaction : Transaction) (rejected : Rejected)
| RejectedExecute (transaction : Transaction) (rejected : Rejected).

Definition transaction (ct : ConfirmedTransaction) : Transaction :=
  match ct with
  | Accepted t | RejectedDeploy t _ | RejectedExecute t _ => t
  end.

(** A block as [get_full_block_range] hands it over. *)
Record Block := { height : Z; transactions : list ConfirmedTransaction }.

Definition u32_max : Z := 4294967295.

End Ledger.

(** ** The relational store

    One module per table the statements of util.py name, with the columns
    they name.  Foreign-key actions, constraints and columns the
    statements do not mention live in the schema, outside the source file:
    a statement here changes exactly the table it names. *)

Definition bytes := list Byte.byte.

Global Instance byte_eq_dec : EqDecision Byte.byte := Byte.byte_eq_dec.

Module mapping_history.
Record row := { id : Z; mapping_id : Z; key_id : string; key : bytes;
                value : option bytes; height : Z }.

Global Instance row_eq_dec : EqDecision row.
Proof. solve_decision. Defined.
End mapping_history.

Module mapping_value.
Record row := { mapping_id : Z; key_id : string; value_id : string;
                key : bytes; value : bytes }.
End mapping_value.

(** The column is spelled [confimed_transaction_id] in the statements. *)
Module transaction.
Record row := { transaction_id : string; original_transaction_id : option string;
                confimed_transaction_id : option Z; type : string }.
End transaction.

Module program.
Record row := { id : Z; program_id : string }.
End program.

Module mapping.
Record row := { id : Z; program_id : string; mapping : string }.
End mapping.

Module program_function.
Record row := { program_id : Z; name : string; called : Z }.
End program_function.

Module prover_solution.
Record row := { coinbase_solution_id : Z; address : string; reward : Z }.
End prover_solution.

Module coinbase_solution.
Record row := { id : Z; block_id : Z }.
End coinbase_solution.

Module leaderboard.
Record row := { address : string; total_reward : Z }.
End leaderboard.

(** A block row stands with the confirmed transactions the range reader
    populates it with. *)
Module block.
Record row := { id : Z; height : Z; transactions : list Ledger.ConfirmedTransaction }.
End block.

Module committee_history.
Record row := { height : Z }.
End committee_history.

Record Database := {
  mapping_history : list mapping_history.row;
  mapping_value : list mapping_value.row;
  transaction : list transaction.row;
  program : list program.row;
  mapping : list mapping.row;
  program_function : list program_function.row;
  prover_solution : list prover_solution.row;
  coinbase_solution : list coinbase_solution.row;
  leaderboard : list leaderboard.row;
  block : list block.row;
  committee_history : list committee_history.row
}.

(** Rewriting one table and keeping the others. *)
Definition on_mapping_history (f : list mapping_history.row → list mapping_history.row) (d : Database) : Database :=
  {| mapping_history := f (mapping_history d);
     mapping_value := mapping_value d; transaction := transaction d;
     program := program d; mapping := mapping d;
     program_function := program_function d;
     prover_solution := prover_solution d;
     coinbase_solution := coinbase_solution d; leaderboard := leaderboard d;
     block := block d; committee_history := committee_history d |}.

Definition on_mapping_value (f : list mapping_value.row → list mapping_value.row) (d : Database) : Database :=
  {| mapping_history := mapping_history d;
     mapping_value := f (mapping_value d); transaction := transaction d;
     program := program d; mapping := mapping d;
     program_function := program_function d;
     prover_solution := prover_solution d;
     coinbase_solution := coinbase_solution d; leaderboard := leaderboard d;
     block := block d; committee_history := committee_history d |}.

Definition on_transaction (f : list transaction.row → list transaction.row) (d : Database) : Database :=
  {| mapping_history := mapping_history d; mapping_value := mapping_value d;
     transaction := f (transaction d); program := program d;
     mapping := mapping d; program_function := program_function d;
     prover_solution := prover_solution d;
     coinbase_solution := coinbase_solution d; leaderboard := leaderboard d;
     block := block d; committee_history := committee_history d |}.

Definition on_program (f : list program.row → list program.row) (d : Database) : Database :=
  {| mapping_history := mapping_history d; mapping_value := mapping_value d;
     transaction := transaction d; program := f (program d);
     mapping := mapping d; program_function := program_function d;
     prover_solution := prover_solution d;
     coinbase_solution := coinbase_solution d; leaderboard := leaderboard d;
     block := block d; committee_history := committee_history d |}.

Definition on_mapping (f : list mapping.row → list mapping.row) (d : Database) : Database :=
  {| mapping_history := mapping_history d; mapping_value := mapping_value d;
     transaction := transaction d; program := program d;
     mapping := f (mapping d); program_function := program_function d;
     prover_solution := prover_solution d;
     coinbase_solution := coinbase_solution d; leaderboard := leaderboard d;
     block := block d; committee_history := committee_history d |}.

Definition on_program_function (f : list program_function.row → list program_function.row) (d : Database) : Database :=
  {| mapping_history := mapping_history d; mapping_value := mapping_value d;
     transaction := transaction d; program := program d; mapping := mapping d;
     program_function := f (program_function d);
     prover_solution := prover_solution d;
     coinbase_solution := coinbase_solution d; leaderboard := leaderboard d;
     block := block d; committee_history := committee_history d |}.

Definition on_leaderboard (f : list leaderboard.row → list leaderboard.row) (d : Database) : Database :=
  {| mapping_history := mapping_history d; mapping_value := mapping_value d;
     transaction := transaction d; program := program d; mapping := mapping d;
     program_function := program_function d;
     prover_solution := prover_solution d;
     coinbase_solution := coinbase_solution d;
     leaderboard := f (leaderboard d); block := block d;
     committee_history := committee_history d |}.

Definition on_block (f : list block.row → list block.row) (d : Database) : Database :=
  {| mapping_history := mapping_history d; mapping_value := mapping_value d;
     transaction := transaction d; program := program d; mapping := mapping d;
     program_function := program_function d;
     prover_solution := prover_solution d;
     coinbase_solution := coinbase_solution d; leaderboard := leaderboard d;
     block := f (block d); committee_history := committee_history d |}.

Definition on_committee_history (f : list committee_history.row → list committee_history.row) (d : Database) : Database :=
  {| mapping_history := mapping_history d; mapping_value := mapping_value d;
     transaction := transaction d; program := program d; mapping := mapping d;
     program_function := program_function d;
     prover_solution := prover_solution d;
     coinbase_solution := coinbase_solution d; leaderboard := leaderboard d;
     block := block d; committee_history := f (committee_history d) |}.

(** *** Queries *)

(** util.py 74-79: [select distinct on (mapping_id, key_id) ... where
    height <= %s order by mapping_id, key_id, id desc].  The rows are
    ordered by the three sort keys, the last one descending, and the first
    row of every run of equal [(mapping_id, key_id)] is kept. *)
Definition snapshot_compare (a b : mapping_history.row) : comparison :=
  match mapping_history.mapping_id a ?= mapping_history.mapping_id b with
  | Eq =>
      match String.compare (mapping_history.key_id a) (mapping_history.key_id b) with
      | Eq => mapping_history.id b ?= mapping_history.id a
      | c => c
      end
  | c => c
  end.

Definition snapshot_order (a b : mapping_history.row) : Prop :=
  snapshot_compare a b ≠ Gt.

Global Instance snapshot_order_dec a b : Decision (snapshot_order a b).
Proof. unfold snapshot_order. apply _. Defined.

Definition distinct_key (r : mapping_history.row) : Z * string :=
  (mapping_history.mapping_id r, mapping_history.key_id r).

Fixpoint distinct_on_after (previous : Z * string) (rows : list mapping_history.row)
  : list mapping_history.row :=
  match rows with
  | [] => []
  | r :: rest =>
      if decide (distinct_key r = previous)
      then distinct_on_after previous rest
      else r :: distinct_on_after (distinct_key r) rest
  end.

Definition distinct_on (rows : list mapping_history.row) : list mapping_history.row :=
  match rows with
  | [] => []
  | r :: rest => r :: distinct_on_after (distinct_key r) rest
  end.

Definition select_mapping_snapshot (height : Z) (d : Database) : list mapping_history.row :=
  distinct_on
    (merge_sort snapshot_order
       (filter (λ r, mapping_history.height r ≤ height) (mapping_history d))).

(** util.py 107-113: [SELECT original_transaction_id FROM transaction WHERE
    transaction_id = %s] followed by [fetchone]: [None] when no row
    matches, otherwise the column of the first row, itself nullable. *)
Definition select_original_transaction_id (transaction_id : string) (d : Database)
  : option (option string) :=
  transaction.original_transaction_id <$>
    head (filter (λ r, transaction.transaction_id r = transaction_id) (transaction d)).

(** util.py 168-174: the three-table join restricted to one block
    height. *)
Definition select_block_rewards (height : Z) (d : Database) : list (string * Z) :=
  ps ← prover_solution d;
  cs ← filter (λ cs, prover_solution.coinbase_solution_id ps = coinbase_solution.id cs)
         (coinbase_solution d);
  b ← filter (λ b, block.id b = coinbase_solution.block_id cs ∧ block.height b = height)
        (block d);
  [(prover_solution.address ps, prover_solution.reward ps)].

(** *** Statements that write *)

Inductive Statement :=
| TruncateMappingValue
| InsertMappingValue (mapping_id : Z) (key_id value_id : string) (key value : bytes)
| DeleteMappingHistoryAbove (height : Z)
| UpdateTransactionOriginal (original_transaction_id original_type transaction_id : string)
| UpdateTransactionUnconfirmed (transaction_id : string)
| DeleteProgram (program_id : string)
| DeleteMapping (program_id : string)
| UpdateCalled (program_id function_name : string)
| UpdateTotalReward (reward : Z) (address : string)
| DeleteBlockAbove (height : Z)
| DeleteCommitteeHistoryAbove (height : Z).

(** The join condition of util.py 162-165: the function row [pf] belongs
    to a program row whose [program_id] is the transition's, and carries
    the transition's function name. *)
Definition called_by (programs : list program.row) (program_id function_name : string)
    (pf : program_function.row) : Prop :=
  Exists (λ p, program.program_id p = program_id ∧
               program.id p = program_function.program_id pf) programs
  ∧ program_function.name pf = function_name.

Global Instance called_by_dec programs pid fn pf : Decision (called_by programs pid fn pf).
Proof. unfold called_by. apply _. Defined.

Definition execute (s : Statement) (d : Database) : Database :=
  match s with
  | TruncateMappingValue => on_mapping_value (λ _, []) d
  | InsertMappingValue mapping_id key_id value_id key value =>
      on_mapping_value
        (λ rows, rows ++ [ {| mapping_value.mapping_id := mapping_id;
                              mapping_value.key_id := key_id;
                              mapping_value.value_id := value_id;
                              mapping_value.key := key;
                              mapping_value.value := value |} ]) d
  | DeleteMappingHistoryAbove h =>
      on_mapping_history (filter (λ r, ¬ mapping_history.height r > h)) d
  | UpdateTransactionOriginal original_transaction_id original_type transaction_id =>
      on_transaction
        (fmap (λ r, if decide (transaction.transaction_id r = transaction_id)
                    then {| transaction.transaction_id := original_transaction_id;
                            transaction.original_transaction_id := None;
                            transaction.confimed_transaction_id := None;
                            transaction.type := original_type |}
                    else r)) d
  | UpdateTransactionUnconfirmed transaction_id =>
      on_transaction
        (fmap (λ r, if decide (transaction.transaction_id r = transaction_id)
                    then {| transaction.transaction_id := transaction.transaction_id r;
                            transaction.original_transaction_id :=
                              transaction.original_transaction_id r;
                            transaction.confimed_transaction_id := None;
                            transaction.type := transaction.type r |}
                    else r)) d
  | DeleteProgram program_id =>
      on_program (filter (λ r, ¬ program.program_id r = program_id)) d
  | DeleteMapping program_id =>
      on_mapping (filter (λ r, ¬ mapping.program_id r = program_id)) d
  | UpdateCalled program_id function_name =>
      on_program_function
        (fmap (λ pf, if decide (called_by (program d) program_id function_name pf)
                     then {| program_function.program_id := program_function.program_id pf;
                             program_function.name := program_function.name pf;
                             program_function.called := program_function.called pf - 1 |}
                     else pf)) d
  | UpdateTotalReward reward address =>
      on_leaderboard
        (fmap (λ r, if decide (leaderboard.address r = address)
                    then {| leaderboard.address := leaderboard.address r;
                            leaderboard.total_reward := leaderboard.total_reward r - reward |}
                    else r)) d
  | DeleteBlockAbove h => on_block (filter (λ r, ¬ block.height r > h)) d
  | DeleteCommitteeHistoryAbove h =>
      on_committee_history (filter (λ r, ¬ committee_history.height r > h)) d
  end.

(** Modelled from the spec: [DatabaseBlock.get_full_block_range] is defined
    in db/block.py, outside the source file.  Section 6 has it return the
    blocks of a height range with their transactions populated, and
    sections 4.3 and 8 have the revert, which calls it with [(u32.max, H)],
    process every block with height above [H]: the first argument bounds
    the heights from above, the second, excluded, from below.  The spec
    gives no order; the rows come in the order of the table. *)
Definition get_full_block_range (start end_ : Z) (d : Database) : list Ledger.Block :=
  (λ b, {| Ledger.height := block.height b;
           Ledger.transactions := block.transactions b |}) <$>
    filter (λ b, end_ < block.height b ∧ block.height b ≤ start) (block d).

(** ** The cache store *)

Module redis.
(** A key holds a value and, when it is volatile, the time it expires. *)
Record entry := { value : string; expiry : option Z }.

Definition persistent (e : entry) : entry :=
  {| value := value e; expiry := None |}.
End redis.

(** The six state families, util.py 53-60. *)
Definition redis_keys : list string :=
  [ "credits.aleo:bonded"; "credits.aleo:committee"; "address_stake_reward";
    "address_transfer_in"; "address_transfer_out"; "address_fee" ].

(** [f"{redis_key}:history:{height}"] and the two scan patterns. *)
Definition history_key (redis_key : string) (height : Z) : string :=
  redis_key +:+ ":history:" +:+ pretty height.

Definition history_pattern (redis_key : string) : string :=
  redis_key +:+ ":history:*".

Definition rollback_backup_pattern (redis_key : string) : string :=
  redis_key +:+ ":rollback_backup:*".

(** *** Reading a height back from a key *)

(** [x.split(":")[-1]]: what follows the last colon, the whole string when
    there is none. *)
Fixpoint last_segment_from (segment s : string) : string :=
  match s with
  | EmptyString => segment
  | String c rest =>
      if Ascii.eqb c ":"%char then last_segment_from EmptyString rest
      else last_segment_from (segment +:+ String c EmptyString) rest
  end.

Definition last_segment (s : string) : string := last_segment_from EmptyString s.

(** [int(s)] on an ASCII string: surrounding white space is dropped, one
    sign is allowed, then decimal digits, single underscores allowed
    between two digits.  [None] stands for [ValueError]. *)
Definition is_space (c : Ascii.ascii) : bool :=
  let n := Ascii.N_of_ascii c in
  ((9 <=? n) && (n <=? 13) || (28 <=? n) && (n <=? 32))%N.

Definition digit_value (c : Ascii.ascii) : option Z :=
  let n := Z.of_N (Ascii.N_of_ascii c) in
  if decide (48 ≤ n ≤ 57) then Some (n - 48) else None.

Fixpoint lstrip (s : string) : string :=
  match s with
  | String c rest => if is_space c then lstrip rest else s
  | EmptyString => s
  end.

Definition strip (s : string) : string :=
  String.rev (lstrip (String.rev (lstrip s))).

(** [digits acc after_digit s]: [after_digit] tells whether the character
    just read was a digit, the only place an underscore or the end may
    follow. *)
Fixpoint digits (acc : Z) (after_digit : bool) (s : string) : option Z :=
  match s with
  | EmptyString => if after_digit then Some acc else None
  | String c rest =>
      match digit_value c with
      | Some v => digits (10 * acc + v) true rest
      | None =>
          if Ascii.eqb c "_"%char && after_digit
          then match rest with
               | EmptyString => None
               | String c' _ =>
                   match digit_value c' with
                   | Some _ => digits acc false rest
                   | None => None
                   end
               end
          else None
      end
  end.

Definition int (s : string) : option Z :=
  match strip s with
  | String "-"%char rest => Z.opp <$> digits 0 false rest
  | String "+"%char rest => digits 0 false rest
  | body => digits 0 false body
  end.

(** ** Effects and the monad of the revert *)

Inductive Exception :=
| RuntimeError (message : string)
| ValueError (literal : string).

Inductive SigmaskHow := SIG_BLOCK | SIG_UNBLOCK.

(** What the revert does to the world outside its own variables, in the
    order it does it.  Reads leave no effect. *)
Inductive Effect :=
| PthreadSigmask (how : SigmaskHow)
| ConnectionAcquired
| ConnectionReturned
| TransactionBegin
| TransactionCommit
| TransactionRollback
| CursorExecute (s : Statement)
| RedisCopy (source destination : string)
| RedisPersist (name : string)
| RedisDelete (name : string)
| MessageCallback (database_error : Exception).

Record World := {
  db : Database;
  store : gmap string redis.entry;
  sigint_blocked : bool;
  effects : list Effect
}.

Inductive Result (A : Type) :=
| Ok (a : A)
| Raise (e : Exception).
Arguments Ok {A} a.
Arguments Raise {A} e.

Definition M (A : Type) : Type := World → Result A * World.

Global Instance M_ret : MRet M := λ A a w, (Ok a, w).

Global Instance M_bind : MBind M := λ A B f m w,
  match m w with
  | (Ok a, w') => f a w'
  | (Raise e, w') => (Raise e, w')
  end.

Definition raise {A} (e : Exception) : M A := λ w, (Raise e, w).

(** [try: m except Exception as e: handler e]. *)
Definition try_except {A} (m : M A) (handler : Exception → M A) : M A := λ w,
  match m w with
  | (Ok a, w') => (Ok a, w')
  | (Raise e, w') => handler e w'
  end.

Fixpoint for_each {A} (l : list A) (f : A → M unit) : M unit :=
  match l with
  | [] => mret ()
  | x :: rest => f x ;; for_each rest f
  end.

Definition emit (e : Effect) (w : World) : World :=
  {| db := db w; store := store w; sigint_blocked := sigint_blocked w;
     effects := effects w ++ [e] |}.

Definition with_db (d : Database) (w : World) : World :=
  {| db := d; store := store w; sigint_blocked := sigint_blocked w;
     effects := effects w |}.

Definition with_store (s : gmap string redis.entry) (w : World) : World :=
  {| db := db w; store := s; sigint_blocked := sigint_blocked w;
     effects := effects w |}.

Definition with_sigint_blocked (b : bool) (w : World) : World :=
  {| db := db w; store := store w; sigint_blocked := b; effects := effects w |}.

(** What an effect does to the world.  The brackets of a connection and of
    a transaction are given their meaning by [pool_connection] and
    [conn_transaction] below; here they only leave their mark. *)
Definition perform (e : Effect) (w : World) : World :=
  emit e
    match e with
    | PthreadSigmask SIG_BLOCK => with_sigint_blocked true w
    | PthreadSigmask SIG_UNBLOCK => with_sigint_blocked false w
    | CursorExecute s => with_db (execute s (db w)) w
    | RedisCopy source destination =>
        with_store (match store w !! source with
                    | Some e => <[destination := e]> (store w)
                    | None => store w
                    end) w
    | RedisPersist name => with_store (alter redis.persistent name (store w)) w
    | RedisDelete name => with_store (delete name (store w)) w
    | _ => w
    end.

Definition effect (e : Effect) : M unit := λ w, (Ok (), perform e w).

(** [signal.pthread_sigmask(how, {signal.SIGINT})]. *)
Definition pthread_sigmask (how : SigmaskHow) : M unit := effect (PthreadSigmask how).

(** [await self.message_callback(ExplorerMessage(DatabaseError, e))]. *)
Definition message_callback (e : Exception) : M unit := effect (MessageCallback e).

(** [async with self.pool.connection() as conn]. *)
Definition pool_connection {A} (m : M A) : M A := λ w,
  match m (perform ConnectionAcquired w) with
  | (r, w') => (r, perform ConnectionReturned w')
  end.

(** [async with conn.transaction()]: commit when the block ends, roll the
    relational store back to where the block began when it raises.  The
    cache store is not part of the transaction.  The cursor opened inside
    it, [async with conn.cursor() as cur], has no effect of its own. *)
Definition conn_transaction {A} (m : M A) : M A := λ w,
  match m (perform TransactionBegin w) with
  | (Ok a, w') => (Ok a, perform TransactionCommit w')
  | (Raise e, w') => (Raise e, perform TransactionRollback (with_db (db w) w'))
  end.

(** [await cur.execute(...)] of a writing statement. *)
Definition cur_execute (s : Statement) : M unit := effect (CursorExecute s).

(** [await cur.execute(select ...)] followed by the fetch. *)
Definition cur_fetch {A} (query : Database → A) : M A := λ w, (Ok (query (db w)), w).

(** [await self.redis.exists(name)], read as a truth value. *)
Definition redis_exists (name : string) : M bool :=
  λ w, (Ok (bool_decide (is_Some (store w !! name))), w).

(** [await self.redis.copy(source, destination, replace=True)]: nothing is
    written when the source is missing. *)
Definition redis_copy (source destination : string) : M unit :=
  effect (RedisCopy source destination).

(** [await self.redis.persist(name)]. *)
Definition redis_persist (name : string) : M unit := effect (RedisPersist name).

(** [await self.redis.delete(name)]. *)
Definition redis_delete (name : string) : M unit := effect (RedisDelete name).

(** ** [DatabaseUtil.revert_to_last_backup] *)

Section revert.

(** Two collaborators are used through their interface: the content hash
    [aleo_explorer_rust.get_value_id], and the cache server's answer to
    [SCAN cursor MATCH match COUNT count], which depends on the server's
    table layout and not only on the keys it holds. *)
Variable get_value_id : string → bytes → string.
Variable scan_reply : gmap string redis.entry → Z → string → Z → Z * list string.

(** *** Cache calls *)

Definition redis_scan (cursor : Z) (match_ : string) (count : Z) : M (Z * list string) :=
  λ w, (Ok (scan_reply (store w) cursor match_ count), w).

(** *** util.py 61-72: the last backup *)

Definition key_height (x : string) : M Z :=
  match int (last_segment x) with
  | Some h => mret h
  | None => raise (ValueError (last_segment x))
  end.

(** [sorted(keys, key=lambda x: int(x.split(":")[-1]))]: the key function
    is evaluated on every element, in order, before anything is compared;
    the elements are then ordered by it. *)
Fixpoint decorate (keys : list string) : M (list (Z * string)) :=
  match keys with
  | [] => mret []
  | x :: rest => h ← key_height x; tail ← decorate rest; mret ((h, x) :: tail)
  end.

Definition by_height (a b : Z * string) : Prop := a.1 ≤ b.1.

Global Instance by_height_dec a b : Decision (by_height a b).
Proof. unfold by_height. apply _. Defined.

Definition sorted (keys : list string) : M (list string) :=
  decorated ← decorate keys;
  mret (snd <$> merge_sort by_height decorated).

(** util.py 69-71. *)
Definition require_backup_key (last_backup_height : Z) (redis_key : string) : M unit :=
  found ← redis_exists (history_key redis_key last_backup_height);
  if (found : bool) then mret ()
  else raise (RuntimeError
                ("backup key not found: " +:+ history_key redis_key last_backup_height)).

Definition last_backup_height : M Z :=
  '(cursor, keys) ← redis_scan 0 (history_pattern (redis_keys !!! 0%nat)) 100;
  if decide (cursor ≠ 0) then raise (RuntimeError "unsupported configuration") else
  if decide (keys = []) then raise (RuntimeError "no backup found") else
  keys ← sorted keys;
  let last_backup := List.last keys EmptyString in
  last_backup_height ← key_height last_backup;
  for_each redis_keys (require_backup_key last_backup_height);;
  mret last_backup_height.

(** *** util.py 74-99: the mapping values at the backup height *)

Definition rebuild_mapping_value (last_backup_height : Z) : M unit :=
  mapping_snapshot ← cur_fetch (select_mapping_snapshot last_backup_height);
  cur_execute TruncateMappingValue;;
  for_each mapping_snapshot (λ item,
    let mapping_id := mapping_history.mapping_id item in
    let key_id := mapping_history.key_id item in
    let key := mapping_history.key item in
    match mapping_history.value item with
    | Some value =>
        let value_id := get_value_id key_id value in
        cur_execute (InsertMappingValue mapping_id key_id value_id key value)
    | None => mret ()
    end);;
  cur_execute (DeleteMappingHistoryAbove last_backup_height).

(** *** util.py 101-189: the blocks above the backup height *)

(** util.py 105-132, "revert to unconfirmed transactions". *)
Definition revert_to_unconfirmed (ct : Ledger.ConfirmedTransaction) : M unit :=
  let t := Ledger.transaction ct in
  match ct with
  | Ledger.RejectedDeploy _ _ | Ledger.RejectedExecute _ _ =>
      res ← cur_fetch (select_original_transaction_id (Ledger.id t));
      match res with
      | None => raise (RuntimeError ("missing transaction: " +:+ Ledger.id t))
      | Some original_transaction_id =>
          match original_transaction_id with
          | Some original =>
              let original_type :=
                match ct with
                | Ledger.RejectedDeploy _ _ => "Deploy"
                | _ => "Execute"
                end in
              cur_execute (UpdateTransactionOriginal original original_type (Ledger.id t))
          | None => mret ()
          end
      end
  | Ledger.Accepted _ =>
      cur_execute (UpdateTransactionUnconfirmed (Ledger.id t))
  end.

(** util.py 133-159: the transitions whose call is taken back, and, for a
    deployment, the program and its mappings. *)
Definition reverted_transitions (ct : Ledger.ConfirmedTransaction) : M (list Ledger.Transition) :=
  match Ledger.transaction ct with
  | Ledger.ExecuteTransaction _ execution additional_fee =>
      mret (Ledger.transitions execution ++
            match additional_fee with
            | Some fee => [Ledger.transition fee]
            | None => []
            end)
  | Ledger.DeployTransaction _ deployment fee =>
      let transitions := [Ledger.transition fee] in
      let program := Ledger.program deployment in
      cur_execute (DeleteProgram program);;
      cur_execute (DeleteMapping program);;
      mret transitions
  | Ledger.FeeTransaction _ fee =>
      match ct with
      | Ledger.RejectedDeploy _ _ => mret [Ledger.transition fee]
      | Ledger.RejectedExecute _ rejected =>
          match rejected with
          | Ledger.RejectedExecution execution =>
              mret (Ledger.transitions execution ++ [Ledger.transition fee])
          | Ledger.RejectedDeployment => raise (RuntimeError "wrong transaction data")
          end
      | Ledger.Accepted _ => raise (RuntimeError "wrong transaction type")
      end
  end.

(** util.py 160-166. *)
Definition decrease_called (transitions : list Ledger.Transition) : M unit :=
  for_each transitions (λ ts,
    cur_execute (UpdateCalled (Ledger.program_id ts) (Ledger.function_name ts))).

Definition revert_transaction (ct : Ledger.ConfirmedTransaction) : M unit :=
  revert_to_unconfirmed ct;;
  transitions ← reverted_transitions ct;
  decrease_called transitions.

(** util.py 167-181. *)
Definition revert_leaderboard (block : Ledger.Block) : M unit :=
  rewards ← cur_fetch (select_block_rewards (Ledger.height block));
  for_each rewards (λ item,
    let address := item.1 in
    let reward := item.2 in
    cur_execute (UpdateTotalReward reward address)).

Definition revert_block (block : Ledger.Block) : M unit :=
  for_each (Ledger.transactions block) revert_transaction;;
  revert_leaderboard block.

Definition revert_blocks (last_backup_height : Z) : M unit :=
  blocks_to_revert ← cur_fetch (get_full_block_range Ledger.u32_max last_backup_height);
  for_each blocks_to_revert revert_block;;
  cur_execute (DeleteBlockAbove last_backup_height);;
  cur_execute (DeleteCommitteeHistoryAbove last_backup_height).

(** *** util.py 191-198: the cache *)

Definition restore_redis_key (last_backup_height : Z) (redis_key : string) : M unit :=
  let backup_key := history_key redis_key last_backup_height in
  redis_copy backup_key redis_key;;
  redis_persist redis_key;;
  '(_, keys) ← redis_scan 0 (rollback_backup_pattern redis_key) 100;
  for_each keys redis_delete.

Definition restore_redis (last_backup_height : Z) : M unit :=
  for_each redis_keys (restore_redis_key last_backup_height).

(** *** util.py 47-204 *)

(** The body of the [try]. *)
Definition revert_body : M unit :=
  last_backup_height ← last_backup_height;
  rebuild_mapping_value last_backup_height;;
  revert_blocks last_backup_height;;
  restore_redis last_backup_height.

(** The [except Exception as e] clause. *)
Definition revert_handler (e : Exception) : M unit :=
  message_callback e;;
  pthread_sigmask SIG_UNBLOCK;;
  raise e.

Definition revert_to_last_backup : M unit :=
  pthread_sigmask SIG_BLOCK;;
  pool_connection (conn_transaction (try_except revert_body revert_handler));;
  pthread_sigmask SIG_UNBLOCK.

End revert.

(** ** Two cache servers

    [scan_reply] is an interface; these are two servers behind it.  Both
    match a pattern made of literal characters and one final [*], which is
    all util.py asks for. *)

Fixpoint glob_match (pattern name : string) : bool :=
  match pattern with
  | EmptyString => match name with EmptyString => true | _ => false end
  | String c pattern' =>
      match pattern' with
      | EmptyString =>
          if Ascii.eqb c "*"%char then true
          else match name with
               | String c' EmptyString => Ascii.eqb c c'
               | _ => false
               end
      | _ =>
          match name with
          | String c' name' => Ascii.eqb c c' && glob_match pattern' name'
          | EmptyString => false
          end
      end
  end.

Definition key_names (s : gmap string redis.entry) : list string :=
  (map_to_list s).*1.

(** A server that walks its whole table in one call. *)
Definition scan_whole_table (s : gmap string redis.entry) (cursor : Z) (match_ : string)
    (count : Z) : Z * list string :=
  (0, filter (λ k, glob_match match_ k = true) (key_names s)).

(** A server that visits [count] keys per call, starting at [cursor], and
    hands back the position to go on from, 0 once the table is
    exhausted. *)
Definition scan_by_page (s : gmap string redis.entry) (cursor : Z) (match_ : string)
    (count : Z) : Z * list string :=
  let names := drop (Z.to_nat cursor) (key_names s) in
  (if decide (Z.of_nat (length names) ≤ count) then 0 else cursor + count,
   filter (λ k, glob_match match_ k = true) (take (Z.to_nat count) names)).

(** ** Vocabulary of the statements *)

Definition IncompleteCheckpoint (redis_key : string) (height : Z) : Exception :=
  RuntimeError ("backup key not found: " +:+ history_key redis_key height).
Definition MissingTransactionRecord (transaction_id : string) : Exception :=
  RuntimeError ("missing transaction: " +:+ transaction_id).
Definition InvalidRejectedPayload : Exception := RuntimeError "wrong transaction data".
Definition InvalidTransactionShape : Exception := RuntimeError "wrong transaction type".

(** A sequence of effects performed from a world, and the statements among
    them replayed on a database. *)
Definition run_trace (trace : list Effect) (w : World) : World :=
  foldl (flip perform) w trace.

Definition statements (trace : list Effect) : list Statement :=
  omap (λ e, match e with CursorExecute s => Some s | _ => None end) trace.

Definition replay (stmts : list Statement) (d : Database) : Database :=
  foldl (flip execute) d stmts.



Definition is_redis_write (e : Effect) : Prop :=
  match e with RedisCopy _ _ | RedisPersist _ | RedisDelete _ => True | _ => False end.

(** The statements of the ledger walk, util.py 101-189: none of them names
    [mapping_value] or [mapping_history]. *)
Definition ledger_statement (s : Statement) : Prop :=
  match s with
  | TruncateMappingValue | InsertMappingValue _ _ _ _ _ | DeleteMappingHistoryAbove _ => False
  | _ => True
  end.

(** The transitions whose call [revert_transaction] takes back when it
    does not raise, and the program it deletes. *)
Definition transition_set (ct : Ledger.ConfirmedTransaction) : list Ledger.Transition :=
  match Ledger.transaction ct with
  | Ledger.ExecuteTransaction _ execution additional_fee =>
      Ledger.transitions execution ++
      match additional_fee with
      | Some fee => [Ledger.transition fee]
      | None => []
      end
  | Ledger.DeployTransaction _ _ fee => [Ledger.transition fee]
  | Ledger.FeeTransaction _ fee =>
      match ct with
      | Ledger.RejectedDeploy _ _ => [Ledger.transition fee]
      | Ledger.RejectedExecute _ (Ledger.RejectedExecution execution) =>
          Ledger.transitions execution ++ [Ledger.transition fee]
      | _ => []
      end
  end.

Definition deployed_program (ct : Ledger.ConfirmedTransaction) : list string :=
  match Ledger.transaction ct with
  | Ledger.DeployTransaction _ deployment _ => [Ledger.program deployment]
  | _ => []
  end.

(** The confirmed transactions of the blocks above a height, in the order
    the revert walks them. *)
Definition transactions_above (height : Z) (d : Database) : list Ledger.ConfirmedTransaction :=
  block ← get_full_block_range Ledger.u32_max height d;
  Ledger.transactions block.

(** The statements of util.py 81-99 for a snapshot. *)
Definition insert_statements (get_value_id : string → bytes → string)
    (snapshot : list mapping_history.row) : list Statement :=
  item ← snapshot;
  match mapping_history.value item with
  | Some value =>
      [InsertMappingValue (mapping_history.mapping_id item) (mapping_history.key_id item)
         (get_value_id (mapping_history.key_id item) value)
         (mapping_history.key item) value]
  | None => []
  end.

Definition rebuild_statements (get_value_id : string → bytes → string) (height : Z)
    (d : Database) : list Statement :=
  TruncateMappingValue ::
  insert_statements get_value_id (select_mapping_snapshot height d) ++
  [DeleteMappingHistoryAbove height].

(** What a sequence of statements asks of [program_function], [program]
    and [mapping]. *)
Definition called_functions (stmts : list Statement) : list (string * string) :=
  omap (λ s, match s with UpdateCalled p f => Some (p, f) | _ => None end) stmts.

Definition deleted_programs (stmts : list Statement) : list string :=
  omap (λ s, match s with DeleteProgram p => Some p | _ => None end) stmts.

Definition deleted_mappings (stmts : list Statement) : list string :=
  omap (λ s, match s with DeleteMapping p => Some p | _ => None end) stmts.

Definition call_of (ts : Ledger.Transition) : string * string :=
  (Ledger.program_id ts, Ledger.function_name ts).

(** What the walk over a run of confirmed transactions executes when it
    does not raise: ledger statements, one [UpdateCalled] per transition of
    the transition sets, one [DeleteProgram] and one [DeleteMapping] per
    deployment. *)
Definition walk_summary (cts : list Ledger.ConfirmedTransaction) (stmts : list Statement) : Prop :=
  Forall ledger_statement stmts
  ∧ called_functions stmts = call_of <$> (cts ≫= transition_set)
  ∧ deleted_programs stmts = cts ≫= deployed_program
  ∧ deleted_mappings stmts = cts ≫= deployed_program.

Definition transaction_statement (s : Statement) : Prop :=
  match s with
  | UpdateTransactionOriginal _ _ _ | UpdateTransactionUnconfirmed _ => True
  | _ => False
  end.

(** What the cache restore writes for one state family. *)
Definition restore_trace (height : Z) (redis_key : string) (part : list Effect) : Prop :=
  ∃ deleted,
    part = RedisCopy (history_key redis_key height) redis_key
           :: RedisPersist redis_key :: (RedisDelete <$> deleted).

(** A run of [m] that returns: the world it leaves is the one reached by
    executing some statements [P] holds of. *)
Definition yields {A} (m : M A) (P : A → list Statement → Prop) : Prop :=
  ∀ w a w', m w = (Ok a, w') →
    ∃ stmts, w' = run_trace (CursorExecute <$> stmts) w ∧ P a stmts.




(** The order of the snapshot query on [(mapping_id, key_id)]. *)
Definition key_lt (a b : Z * string) : Prop :=
  a.1 < b.1 ∨ (a.1 = b.1 ∧ String.compare a.2 b.2 = Lt).

(** The rows [mapping_value] is refilled with, util.py 84-95. *)
Definition mapping_value_of (get_value_id : string → bytes → string)
    (item : mapping_history.row) (value : bytes) : mapping_value.row :=
  {| mapping_value.mapping_id := mapping_history.mapping_id item;
     mapping_value.key_id := mapping_history.key_id item;
     mapping_value.value_id := get_value_id (mapping_history.key_id item) value;
     mapping_value.key := mapping_history.key item;
     mapping_value.value := value |}.

Definition snapshot_rows (get_value_id : string → bytes → string)
    (snapshot : list mapping_history.row) : list mapping_value.row :=
  item ← snapshot;
  match mapping_history.value item with
  | Some value => [mapping_value_of get_value_id item value]
  | None => []
  end.

Definition value_key (r : mapping_value.row) : Z * string :=
  (mapping_value.mapping_id r, mapping_value.key_id r).

(** [e] is the entry with the greatest insertion id among those of its
    [(mapping_id, key_id)] at or below [height]. *)
Definition latest_entry (height : Z) (history : list mapping_history.row)
    (e : mapping_history.row) : Prop :=
  e ∈ history ∧ mapping_history.height e ≤ height ∧
  ∀ e', e' ∈ history → distinct_key e' = distinct_key e →
        mapping_history.height e' ≤ height → e' ≠ e →
        mapping_history.id e' < mapping_history.id e.




(** What util.py 106-127 does for a rejected confirmed transaction whose
    original type is [kind], by the answer of the lookup. *)
Definition rejection_undone (ct : Ledger.ConfirmedTransaction) (kind : string) (w : World) : Prop :=
  let transaction_id := Ledger.id (Ledger.transaction ct) in
  match select_original_transaction_id transaction_id (db w) with
  | None =>
      revert_to_unconfirmed ct w = (Raise (MissingTransactionRecord transaction_id), w)
  | Some (Some original) =>
      ∃ w', revert_to_unconfirmed ct w = (Ok (), w')
            ∧ transaction (db w') =
              (λ r, if decide (transaction.transaction_id r = transaction_id)
                    then {| transaction.transaction_id := original;
                            transaction.original_transaction_id := None;
                            transaction.confimed_transaction_id := None;
                            transaction.type := kind |}
                    else r) <$> transaction (db w)
  | Some None =>
      revert_to_unconfirmed ct w = (Ok (), w)
  end.

(** ** Sample worlds *)

Definition sample_get_value_id (key_id : string) (value : bytes) : string :=
  key_id +:+ ":" +:+ pretty (Z.of_nat (length value)).

Definition snapshot_entry (height : Z) : redis.entry :=
  {| redis.value := "snapshot at " +:+ pretty height; redis.expiry := None |}.

Definition live_entry : redis.entry :=
  {| redis.value := "live"; redis.expiry := Some 3600 |}.

Definition history_entries (height : Z) : list (string * redis.entry) :=
  (λ k, (history_key k height, snapshot_entry height)) <$> redis_keys.

(** Snapshots of every family at heights 80 and 90, live keys, and one
    rollback backup. *)
Definition sample_store : gmap string redis.entry :=
  list_to_map (history_entries 80 ++ history_entries 90 ++
               ((λ k, (k, live_entry)) <$> redis_keys) ++
               [("address_fee:rollback_backup:100", live_entry)]).

Definition history_row (id mapping_id : Z) (key_id : string) (value : option bytes) (height : Z)
  : mapping_history.row :=
  {| mapping_history.id := id; mapping_history.mapping_id := mapping_id;
     mapping_history.key_id := key_id; mapping_history.key := [];
     mapping_history.value := value; mapping_history.height := height |}.

Definition fee_public : Ledger.Fee :=
  {| Ledger.transition :=
       {| Ledger.program_id := "credits.aleo"; Ledger.function_name := "fee_public" |} |}.

Definition transfer_public : Ledger.Transition :=
  {| Ledger.program_id := "credits.aleo"; Ledger.function_name := "transfer_public" |}.


Definition deploy_p : Ledger.Transaction :=
  Ledger.DeployTransaction "tx-deploy" {| Ledger.program := "p.aleo" |} fee_public.

(** A chain at height 96 over a checkpoint at 90: block 95 deploys
    [p.aleo] and carries a rejected deployment recorded under
    [tx-orig-1]; block 96 executes a transfer. *)
Definition sample_database : Database :=
  {| mapping_history :=
       [ history_row 1 1 "k1" (Some [Byte.x01]) 85;
         history_row 2 1 "k1" (Some [Byte.x02; Byte.x03]) 90;
         history_row 3 1 "k1" None 95;
         history_row 4 1 "k2" (Some [Byte.x04]) 88;
         history_row 5 1 "k2" None 89;
         history_row 6 2 "k1" (Some [Byte.x05]) 96 ];
     mapping_value := [];
     transaction :=
       [ {| transaction.transaction_id := "tx-deploy";
            transaction.original_transaction_id := None;
            transaction.confimed_transaction_id := Some 1;
            transaction.type := "Deploy" |};
         {| transaction.transaction_id := "tx-fee-1";
            transaction.original_transaction_id := Some "tx-orig-1";
            transaction.confimed_transaction_id := Some 2;
            transaction.type := "Fee" |};
         {| transaction.transaction_id := "tx-exec";
            transaction.original_transaction_id := None;
            transaction.confimed_transaction_id := Some 3;
            transaction.type := "Execute" |} ];
     program :=
       [ {| program.id := 1; program.program_id := "credits.aleo" |};
         {| program.id := 2; program.program_id := "p.aleo" |} ];
     mapping := [ {| mapping.id := 2; mapping.program_id := "p.aleo"; mapping.mapping := "m" |} ];
     program_function :=
       [ {| program_function.program_id := 1; program_function.name := "fee_public";
            program_function.called := 10 |};
         {| program_function.program_id := 1; program_function.name := "transfer_public";
            program_function.called := 4 |};
         {| program_function.program_id := 2; program_function.name := "foo";
            program_function.called := 0 |} ];
     prover_solution :=
       [ {| prover_solution.coinbase_solution_id := 1; prover_solution.address := "aleo1x";
            prover_solution.reward := 5 |} ];
     coinbase_solution := [ {| coinbase_solution.id := 1; coinbase_solution.block_id := 96 |} ];
     leaderboard := [ {| leaderboard.address := "aleo1x"; leaderboard.total_reward := 50 |} ];
     block :=
       [ {| block.id := 90; block.height := 90; block.transactions := [] |};
         {| block.id := 95; block.height := 95;
            block.transactions :=
              [ Ledger.Accepted deploy_p;
                Ledger.RejectedDeploy (Ledger.FeeTransaction "tx-fee-1" fee_public)
                  Ledger.RejectedDeployment ] |};
         {| block.id := 96; block.height := 96;
            block.transactions :=
              [ Ledger.Accepted
                  (Ledger.ExecuteTransaction "tx-exec"
                     {| Ledger.transitions := [transfer_public] |} (Some fee_public)) ] |} ];
     committee_history :=
       [ {| committee_history.height := 90 |}; {| committee_history.height := 96 |} ] |}.

Definition sample_world : World :=
  {| db := sample_database; store := sample_store; sigint_blocked := false; effects := [] |}.

Definition sample_revert : Result unit * World :=
  revert_to_last_backup sample_get_value_id scan_whole_table sample_world.

(** The sample chain with the rejected deployment left unrecorded: the row
    of [tx-fee-1] carries no original transaction id. *)
Definition unrecorded_world : World :=
  {| db := on_transaction
             (λ _, [ {| transaction.transaction_id := "tx-fee-1";
                        transaction.original_transaction_id := None;
                        transaction.confimed_transaction_id := Some 2;
                        transaction.type := "Fee" |} ]) sample_database;
     store := sample_store; sigint_blocked := false; effects := [] |}.

Definition rejected_fee : Ledger.ConfirmedTransaction :=
  Ledger.RejectedDeploy (Ledger.FeeTransaction "tx-fee-1" fee_public) Ledger.RejectedDeployment.


(** A cache of one hundred keys behind the paging server: the six
    snapshots at height 90, one rollback backup, ninety-three keys of
    other uses, and no live key (all expired). *)
Definition paged_store : gmap string redis.entry :=
  list_to_map (history_entries 90 ++
               [("address_transfer_in:rollback_backup:95", live_entry)] ++
               ((λ i, ("cache:" +:+ pretty i, live_entry)) <$> seqZ 1 93)).

Definition paged_world : World :=
  {| db := sample_database; store := paged_store; sigint_blocked := false; effects := [] |}.

(** ** The address collector (util.py 15-23) *)

Section plaintexts.
Import Plaintexts.

Lemma get_addresses_from_struct_unfold members :
  get_addresses_from_struct (StructPlaintext members)
  = ⋃ (member_addresses ∘ snd <$> members).
Proof.
  cbn [get_addresses_from_struct].
  rewrite <- (left_id_L ∅ (∪) (⋃ _)).
  generalize (∅ : gset string) as addresses.
  induction members as [|[name p] rest IH]; intros addresses.
  - cbn. by rewrite (right_id_L ∅ (∪)).
  - destruct p as [l|inner|elements];
      cbn [fmap list_fmap union_list foldr compose snd member_addresses].
    + destruct (decide (type l = Address)); rewrite IH.
      * by rewrite (assoc_L (∪)).
      * by rewrite (left_id_L ∅ (∪)).
    + rewrite IH. by rewrite (assoc_L (∪)).
    + rewrite IH. by rewrite (left_id_L ∅ (∪)).
Qed.

Lemma Plaintext_struct_ind (P : list (Identifier * Plaintext) → Prop) :
  (∀ members,
     (∀ name inner, (name, StructPlaintext inner) ∈ members → P inner) →
     P members) →
  ∀ members, P members.
Proof.
  intros step.
  pose (Q := λ p, match p with StructPlaintext ms => P ms | _ => True end).
  assert (∀ p, Q p) as all.
  { fix IH 1. intros [l|ms|es]; [exact I| |exact I].
    assert (Forall (λ m, Q m.2) ms) as inner_ok.
    { induction ms as [|[n q] rest IHrest]; constructor; [apply IH|apply IHrest]. }
    apply step. intros name inner Hin.
    by apply (proj1 (Forall_forall _ _) inner_ok (name, StructPlaintext inner)). }
  intros members. apply (all (StructPlaintext members)).
Qed.

(** C10.  For every struct, [get_addresses_from_struct] returns exactly the
    set of the renderings of the members that are address literals,
    collected through nested struct members; literals of another type and
    arrays add nothing.  The result is a finite set, so it holds no
    duplicate. *)
Theorem get_addresses_from_struct_exact members s :
  s ∈ get_addresses_from_struct (StructPlaintext members) ↔ address_of_struct members s.
Proof.
  split.
  - revert s. induction members as [members IH] using Plaintext_struct_ind. intros s.
    rewrite get_addresses_from_struct_unfold, elem_of_union_list.
    intros (X & [[name p] [-> Hin]]%list_elem_of_fmap & Hs). cbn in Hs.
    destruct p as [l|inner|elements]; cbn in Hs.
    + destruct (decide (type l = Address)); [|by apply not_elem_of_empty in Hs].
      apply elem_of_singleton in Hs as ->. by eapply address_member.
    + eapply address_nested; [done|]. by eapply IH.
    + by apply not_elem_of_empty in Hs.
  - induction 1 as [name l ms Hin Haddr|name inner ms s Hin _ IH];
      rewrite get_addresses_from_struct_unfold, elem_of_union_list.
    + exists {[ str (primitive l) ]}. split; [|by apply elem_of_singleton].
      apply list_elem_of_fmap. exists (name, LiteralPlaintext l). split; [|done].
      cbn. by rewrite decide_True.
    + exists (get_addresses_from_struct (StructPlaintext inner)). split; [|done].
      apply list_elem_of_fmap. by exists (name, StructPlaintext inner).
Qed.
End plaintexts.
(** * Properties *)

(** ** The monad and its traces *)

Section monad_facts.
Context {A B : Type}.

Lemma bind_run (m : M A) (f : A → M B) w :
  (m ≫= f) w = match m w with
               | (Ok a, w') => f a w'
               | (Raise e, w') => (Raise e, w')
               end.
Proof. reflexivity. Qed.

Lemma bind_ok (m : M A) (f : A → M B) w b w' :
  (m ≫= f) w = (Ok b, w') ↔ ∃ a w1, m w = (Ok a, w1) ∧ f a w1 = (Ok b, w').
Proof.
  rewrite bind_run. destruct (m w) as [[a|e] w1]; split.
  - eauto.
  - by intros (? & ? & [= <- <-] & ?).
  - done.
  - by intros (? & ? & [=] & ?).
Qed.

End monad_facts.

Lemma run_trace_app t1 t2 w : run_trace (t1 ++ t2) w = run_trace t2 (run_trace t1 w).
Proof. apply foldl_app. Qed.



Lemma statements_app t1 t2 : statements (t1 ++ t2) = statements t1 ++ statements t2.
Proof. apply omap_app. Qed.

Lemma replay_app s1 s2 d : replay (s1 ++ s2) d = replay s2 (replay s1 d).
Proof. apply foldl_app. Qed.

Lemma db_run_trace t w : db (run_trace t w) = replay (statements t) (db w).
Proof.
  revert w. induction t as [|e t IH]; intros w; [done|].
  change (db (run_trace t (perform e w)) = replay (statements (e :: t)) (db w)).
  rewrite IH. by destruct e as [[]| | | | | | | | | |].
Qed.

Section traced.
Context (Q : Effect → Prop).








End traced.

(** ** The last backup (util.py 61-72) *)

Section locator.
Variable scan_reply : gmap string redis.entry → Z → string → Z → Z * list string.

Lemma key_height_run x w :
  key_height x w = (match int (last_segment x) with
                    | Some h => Ok h
                    | None => Raise (ValueError (last_segment x))
                    end, w).
Proof. unfold key_height. by destruct (int (last_segment x)). Qed.

Lemma decorate_world keys w : (decorate keys w).2 = w.
Proof.
  revert w. induction keys as [|x keys IH]; intros w; [done|].
  cbn [decorate]. rewrite bind_run, key_height_run.
  destruct (int (last_segment x)); [|done].
  rewrite bind_run. specialize (IH w). by destruct (decorate keys w) as [[]?]; simplify_eq/=.
Qed.


Lemma sorted_world keys w : (sorted keys w).2 = w.
Proof.
  unfold sorted. rewrite bind_run. pose proof (decorate_world keys w).
  by destruct (decorate keys w) as [[]?]; simplify_eq/=.
Qed.


Global Instance by_height_total : Total by_height.
Proof. intros a b. unfold by_height. lia. Qed.

Global Instance by_height_trans : Transitive by_height.
Proof. intros a b c. unfold by_height. lia. Qed.






Lemma require_backup_key_run H redis_key w :
  require_backup_key H redis_key w =
  (if decide (is_Some (store w !! history_key redis_key H)) then Ok ()
   else Raise (IncompleteCheckpoint redis_key H), w).
Proof.
  unfold require_backup_key. rewrite bind_run. cbn [redis_exists].
  case_bool_decide; [by rewrite decide_True|by rewrite decide_False].
Qed.

Lemma require_all_world H l w : (for_each l (require_backup_key H) w).2 = w.
Proof.
  induction l as [|k l IH]; [done|]. cbn [for_each].
  rewrite bind_run, require_backup_key_run. by case_decide.
Qed.



(** The locator only reads. *)
Lemma last_backup_height_world w : (last_backup_height scan_reply w).2 = w.
Proof.
  unfold last_backup_height. rewrite bind_run. cbn [redis_scan].
  destruct (scan_reply _ _ _ _) as [cursor keys].
  case_decide; [done|]. case_decide; [done|].
  rewrite bind_run. pose proof (sorted_world keys w) as Hs.
  destruct (sorted keys w) as [[keys'|?] w1]; cbn in Hs; subst w1; [|done].
  rewrite bind_run, key_height_run. destruct (int _); [|done].
  rewrite bind_run. pose proof (require_all_world z redis_keys w) as Hr.
  by destruct (for_each _ _ w) as [[]?]; simplify_eq/=.
Qed.

(** What it returns depends on the cache store alone. *)
Lemma last_backup_height_store w1 w2 :
  store w1 = store w2 → (last_backup_height scan_reply w1).1 = (last_backup_height scan_reply w2).1.
Proof.
  intros Hst. unfold last_backup_height. rewrite !bind_run. cbn [redis_scan].
  rewrite Hst. destruct (scan_reply _ _ _ _) as [cursor keys].
  case_decide; [done|]. case_decide; [done|].
  rewrite !bind_run.
  assert (∀ w, sorted keys w = ((sorted keys w1).1, w)) as Hsorted.
  { intros w. unfold sorted. rewrite !bind_run.
    assert (∀ w, decorate keys w = ((decorate keys w1).1, w)) as Hd.
    { clear. induction keys as [|x keys IH]; intros w; [done|].
      cbn [decorate]. rewrite !bind_run, !key_height_run.
      destruct (int (last_segment x)); [|done]. rewrite !bind_run, (IH w), (IH w1).
      by destruct (decorate keys w1).1. }
    rewrite (Hd w), (Hd w1). by destruct (decorate keys w1).1. }
  rewrite (Hsorted w1), (Hsorted w2). destruct (sorted keys w1).1 as [keys'|]; [|done].
  rewrite !bind_run, !key_height_run. destruct (int _) as [hh|]; [|done].
  rewrite !bind_run.
  assert (∀ l, (for_each l (require_backup_key hh) w1).1
               = (for_each l (require_backup_key hh) w2).1) as Hreq.
  { induction l as [|k l IH]; [done|]. cbn [for_each].
    rewrite !bind_run, !require_backup_key_run, Hst. by case_decide. }
  pose proof (require_all_world hh redis_keys w1).
  pose proof (require_all_world hh redis_keys w2).
  specialize (Hreq redis_keys).
  destruct (for_each _ _ w1) as [[]?], (for_each _ _ w2) as [[]?]; by simplify_eq/=.
Qed.




End locator.

(** ** The three phases of the body, as traces *)

Lemma effect_run e w : effect e w = (Ok (), perform e w).
Proof. reflexivity. Qed.

Lemma for_each_effects {A} (g : A → Effect) (l : list A) w :
  for_each l (λ x, effect (g x)) w = (Ok (), run_trace (g <$> l) w).
Proof.
  revert w. induction l as [|x l IH]; intros w; [done|].
  cbn [for_each]. by rewrite bind_run, effect_run, IH.
Qed.

Lemma omap_statement_fmap stmts : statements (CursorExecute <$> stmts) = stmts.
Proof. unfold statements. induction stmts as [|s stmts IH]; [done|]. cbn. by rewrite IH. Qed.


Section yields.

Lemma yields_ret {A} (a : A) (P : A → list Statement → Prop) :
  P a [] → yields (mret a) P.
Proof. intros HP w a' w' [= <- <-]. by exists []. Qed.

Lemma yields_execute s (P : unit → list Statement → Prop) :
  P () [s] → yields (cur_execute s) P.
Proof. intros HP w [] w' [= <-]. by exists [s]. Qed.

Lemma yields_raise {A} e (P : A → list Statement → Prop) : yields (raise e) P.
Proof. by intros w a w' [=]. Qed.

Lemma yields_bind {A B} (m : M A) (f : A → M B) P1 P2 (P : B → list Statement → Prop) :
  yields m P1 → (∀ a, yields (f a) (P2 a)) →
  (∀ a b s1 s2, P1 a s1 → P2 a b s2 → P b (s1 ++ s2)) →
  yields (m ≫= f) P.
Proof.
  intros Hm Hf HP w b w' (a & w1 & E1 & E2)%bind_ok.
  destruct (Hm _ _ _ E1) as (s1 & Ew1 & H1). subst w1.
  destruct (Hf _ _ _ _ E2) as (s2 & Ew' & H2). subst w'.
  exists (s1 ++ s2). rewrite fmap_app, run_trace_app. eauto.
Qed.

(** A loop executes the concatenation of what its rounds execute. *)
Lemma yields_for_each {A} (f : A → M unit) (G : A → list Statement → Prop) l :
  (∀ x, yields (f x) (λ _, G x)) →
  yields (for_each l f) (λ _ stmts, ∃ parts, Forall2 G l parts ∧ stmts = concat parts).
Proof.
  intros Hf. induction l as [|x l IH]; cbn [for_each].
  - apply yields_ret. by exists [].
  - eapply yields_bind; [apply Hf|intros ?; apply IH|].
    intros [] [] s1 s2 H1 (parts & H2 & ->). exists (s1 :: parts). by split; [constructor|].
Qed.

End yields.

(** *** Projections of statement lists *)

Lemma called_functions_app s1 s2 :
  called_functions (s1 ++ s2) = called_functions s1 ++ called_functions s2.
Proof. apply omap_app. Qed.

Lemma deleted_programs_app s1 s2 :
  deleted_programs (s1 ++ s2) = deleted_programs s1 ++ deleted_programs s2.
Proof. apply omap_app. Qed.

Lemma deleted_mappings_app s1 s2 :
  deleted_mappings (s1 ++ s2) = deleted_mappings s1 ++ deleted_mappings s2.
Proof. apply omap_app. Qed.

Lemma called_functions_calls ts :
  called_functions ((λ t, UpdateCalled (Ledger.program_id t) (Ledger.function_name t)) <$> ts)
  = call_of <$> ts.
Proof. unfold called_functions. induction ts as [|t ts IH]; [done|]. cbn. by rewrite IH. Qed.

Lemma deleted_programs_calls ts :
  deleted_programs ((λ t, UpdateCalled (Ledger.program_id t) (Ledger.function_name t)) <$> ts) = [].
Proof. by induction ts. Qed.

Lemma deleted_mappings_calls ts :
  deleted_mappings ((λ t, UpdateCalled (Ledger.program_id t) (Ledger.function_name t)) <$> ts) = [].
Proof. by induction ts. Qed.

Lemma ledger_statement_calls ts :
  Forall ledger_statement
    ((λ t, UpdateCalled (Ledger.program_id t) (Ledger.function_name t)) <$> ts).
Proof. induction ts; by constructor. Qed.

(** *** util.py 74-99 *)

Section rebuild.
Variable get_value_id : string → bytes → string.

Lemma rebuild_mapping_value_run H w :
  rebuild_mapping_value get_value_id H w
  = (Ok (), run_trace (CursorExecute <$> rebuild_statements get_value_id H (db w)) w).
Proof.
  unfold rebuild_mapping_value, rebuild_statements.
  rewrite bind_run. cbn [cur_fetch]. generalize (select_mapping_snapshot H (db w)) as snapshot.
  intros snapshot. rewrite bind_run. unfold cur_execute at 1. rewrite effect_run, bind_run.
  rewrite fmap_cons, fmap_app.
  change (run_trace (?e :: ?t) w) with (run_trace t (perform e w)).
  rewrite run_trace_app.
  generalize (perform (CursorExecute TruncateMappingValue) w) as w1. intros w1.
  assert (∀ w, for_each snapshot
    (λ item,
       match mapping_history.value item with
       | Some value =>
           cur_execute
             (InsertMappingValue (mapping_history.mapping_id item)
                (mapping_history.key_id item)
                (get_value_id (mapping_history.key_id item) value)
                (mapping_history.key item) value)
       | None => mret ()
       end) w
    = (Ok (), run_trace (CursorExecute <$> insert_statements get_value_id snapshot) w)) as ->.
  { clear. induction snapshot as [|item snapshot IH]; intros w; [done|].
    cbn [for_each]. rewrite bind_run.
    change (insert_statements get_value_id (item :: snapshot))
      with (match mapping_history.value item with
            | Some value =>
                [InsertMappingValue (mapping_history.mapping_id item)
                   (mapping_history.key_id item)
                   (get_value_id (mapping_history.key_id item) value)
                   (mapping_history.key item) value]
            | None => []
            end ++ insert_statements get_value_id snapshot).
    destruct (mapping_history.value item); cbn; by rewrite IH. }
  done.
Qed.

End rebuild.

(** *** util.py 101-189 *)

Lemma revert_to_unconfirmed_yields ct :
  yields (revert_to_unconfirmed ct) (λ _ stmts,
    Forall ledger_statement stmts ∧ called_functions stmts = []
    ∧ deleted_programs stmts = [] ∧ deleted_mappings stmts = []).
Proof.
  set (P := λ (_ : ()) stmts,
    Forall ledger_statement stmts ∧ called_functions stmts = []
    ∧ deleted_programs stmts = [] ∧ deleted_mappings stmts = []).
  assert (∀ s, transaction_statement s → yields (cur_execute s) P) as Hexec.
  { intros s Hs. apply yields_execute. destruct s; try done; by repeat constructor. }
  assert (∀ t kind,
    yields (res ← cur_fetch (select_original_transaction_id (Ledger.id t));
            match res with
            | None => raise (RuntimeError ("missing transaction: " +:+ Ledger.id t))
            | Some original_transaction_id =>
                match original_transaction_id with
                | Some original =>
                    cur_execute (UpdateTransactionOriginal original kind (Ledger.id t))
                | None => mret ()
                end
            end) P) as Hrej.
  { intros t kind w a w' E. rewrite bind_run in E. cbn [cur_fetch] in E.
    destruct (select_original_transaction_id _ _) as [[original|]|].
    - exact (Hexec (UpdateTransactionOriginal original kind (Ledger.id t)) I w a w' E).
    - refine (yields_ret () P _ w a w' E). by repeat constructor.
    - exact (yields_raise _ P w a w' E). }
  destruct ct as [t|t rejected|t rejected]; cbn [revert_to_unconfirmed Ledger.transaction].
  - exact (Hexec (UpdateTransactionUnconfirmed (Ledger.id t)) I).
  - apply Hrej.
  - apply Hrej.
Qed.

Lemma reverted_transitions_yields ct :
  yields (reverted_transitions ct) (λ ts stmts,
    ts = transition_set ct
    ∧ Forall ledger_statement stmts ∧ called_functions stmts = []
    ∧ deleted_programs stmts = deployed_program ct
    ∧ deleted_mappings stmts = deployed_program ct).
Proof.
  intros w ts w' E. unfold reverted_transitions, transition_set, deployed_program in *.
  destruct (Ledger.transaction ct) as [i execution additional_fee|i deployment fee|i fee].
  - injection E as <- <-. exists []. by repeat constructor.
  - injection E as <- <-.
    exists [DeleteProgram (Ledger.program deployment); DeleteMapping (Ledger.program deployment)].
    by repeat constructor.
  - destruct ct as [t|t rejected|t rejected]; [done| |destruct rejected; [done|]];
      injection E as <- <-; exists []; by repeat constructor.
Qed.

Lemma decrease_called_run ts w :
  decrease_called ts w
  = (Ok (), run_trace
              (CursorExecute <$>
                 ((λ t, UpdateCalled (Ledger.program_id t) (Ledger.function_name t)) <$> ts)) w).
Proof.
  unfold decrease_called, cur_execute. rewrite (for_each_effects (λ t, CursorExecute _)).
  by rewrite <- list_fmap_compose.
Qed.

Lemma walk_summary_nil : walk_summary [] [].
Proof. by repeat constructor. Qed.

Lemma walk_summary_app cts1 cts2 s1 s2 :
  walk_summary cts1 s1 → walk_summary cts2 s2 → walk_summary (cts1 ++ cts2) (s1 ++ s2).
Proof.
  intros (L1 & C1 & P1 & M1) (L2 & C2 & P2 & M2). unfold walk_summary.
  rewrite called_functions_app, deleted_programs_app, deleted_mappings_app.
  rewrite !bind_app, fmap_app, C1, P1, M1, C2, P2, M2.
  split; [by apply Forall_app|done].
Qed.

Lemma walk_summary_quiet s1 cts s2 :
  Forall ledger_statement s1 → called_functions s1 = [] →
  deleted_programs s1 = [] → deleted_mappings s1 = [] →
  walk_summary cts s2 → walk_summary cts (s2 ++ s1).
Proof.
  intros L C P Mp H2. rewrite <- (app_nil_r cts).
  apply walk_summary_app; [done|]. unfold walk_summary. by rewrite C, P, Mp.
Qed.

Lemma revert_transaction_yields ct :
  yields (revert_transaction ct) (λ _, walk_summary [ct]).
Proof.
  intros w [] w' E. unfold revert_transaction in E.
  apply bind_ok in E as (? & w1 & E1 & E).
  apply bind_ok in E as (ts & w2 & E2 & E3).
  destruct (revert_to_unconfirmed_yields ct _ _ _ E1) as (s1 & Ew1 & L1 & C1 & P1 & M1).
  destruct (reverted_transitions_yields ct _ _ _ E2) as (s2 & Ew2 & Ets & L2 & C2 & P2 & M2).
  rewrite decrease_called_run in E3. injection E3 as <-. subst w1 w2 ts.
  exists (s1 ++ s2 ++ ((λ t, UpdateCalled (Ledger.program_id t) (Ledger.function_name t))
                         <$> transition_set ct)).
  split; [by rewrite !fmap_app, !run_trace_app|].
  unfold walk_summary.
  rewrite !called_functions_app, !deleted_programs_app, !deleted_mappings_app.
  rewrite C1, P1, M1, C2, P2, M2.
  rewrite called_functions_calls, deleted_programs_calls, deleted_mappings_calls.
  cbn [mbind list_bind]. rewrite !app_nil_r. split; [|done].
  repeat (apply Forall_app; split); try done. apply ledger_statement_calls.
Qed.

Lemma walk_summary_concat cts parts :
  Forall2 (λ ct, walk_summary [ct]) cts parts → walk_summary cts (concat parts).
Proof.
  induction 1 as [|ct part cts parts H1 _ IH]; [apply walk_summary_nil|].
  cbn [concat]. by apply (walk_summary_app [ct]).
Qed.

Lemma revert_leaderboard_run b w :
  revert_leaderboard b w
  = (Ok (), run_trace
              (CursorExecute <$>
                 ((λ item, UpdateTotalReward item.2 item.1)
                    <$> select_block_rewards (Ledger.height b) (db w))) w).
Proof.
  unfold revert_leaderboard. rewrite bind_run. cbn [cur_fetch].
  unfold cur_execute. rewrite (for_each_effects (λ item, CursorExecute _)).
  by rewrite <- list_fmap_compose.
Qed.

Lemma revert_block_yields b :
  yields (revert_block b) (λ _, walk_summary (Ledger.transactions b)).
Proof.
  intros w [] w' E. unfold revert_block in E.
  apply bind_ok in E as ([] & w1 & E1 & E2).
  destruct (yields_for_each _ _ _ revert_transaction_yields _ _ _ E1)
    as (s1 & Ew1 & parts & Hparts & ->).
  rewrite revert_leaderboard_run in E2. injection E2 as <-. subst w1.
  eexists (concat parts ++ _). split; [by rewrite fmap_app, run_trace_app|].
  apply walk_summary_quiet; [| | | |by apply walk_summary_concat];
    generalize (select_block_rewards (Ledger.height b)
                  (db (run_trace (CursorExecute <$> concat parts) w)));
    intros l; induction l; by repeat constructor.
Qed.

Lemma walk_summary_blocks (blocks : list Ledger.Block) parts :
  Forall2 (λ b, walk_summary (Ledger.transactions b)) blocks parts →
  walk_summary (blocks ≫= Ledger.transactions) (concat parts).
Proof.
  induction 1 as [|b part blocks parts H1 _ IH]; [apply walk_summary_nil|].
  cbn [concat mbind list_bind]. by apply walk_summary_app.
Qed.

(** The walk, util.py 101-189, when it returns. *)
Lemma revert_blocks_ok H w w' :
  revert_blocks H w = (Ok (), w') →
  ∃ stmts,
    w' = run_trace (CursorExecute <$>
                      (stmts ++ [DeleteBlockAbove H; DeleteCommitteeHistoryAbove H])) w
    ∧ walk_summary (transactions_above H (db w)) stmts.
Proof.
  intros E. unfold revert_blocks in E. rewrite bind_run in E. cbn [cur_fetch] in E.
  apply bind_ok in E as ([] & w1 & E1 & E2).
  destruct (yields_for_each _ _ _ revert_block_yields _ _ _ E1)
    as (s1 & Ew1 & parts & Hparts & ->).
  injection E2 as <-. subst w1. exists (concat parts).
  split; [by rewrite fmap_app, run_trace_app|]. by apply walk_summary_blocks.
Qed.

(** *** util.py 191-198 *)

Section restore.
Variable scan_reply : gmap string redis.entry → Z → string → Z → Z * list string.

Lemma restore_redis_key_run H redis_key w :
  ∃ part, restore_redis_key scan_reply H redis_key w = (Ok (), run_trace part w)
          ∧ restore_trace H redis_key part.
Proof.
  unfold restore_redis_key, redis_copy, redis_persist.
  rewrite bind_run, effect_run, bind_run, effect_run, bind_run. cbn [redis_scan].
  destruct (scan_reply _ _ _ _) as [cursor keys]. unfold redis_delete.
  rewrite (for_each_effects RedisDelete).
  exists (RedisCopy (history_key redis_key H) redis_key
          :: RedisPersist redis_key :: (RedisDelete <$> keys)).
  split; [done|by exists keys].
Qed.

Lemma store_deletes keys w name :
  store (run_trace (RedisDelete <$> keys) w) !! name
  = if decide (name ∈ keys) then None else store w !! name.
Proof.
  revert w. induction keys as [|k keys IH]; intros w.
  { by rewrite decide_False by by intros ?%elem_of_nil. }
  change (run_trace (RedisDelete <$> k :: keys) w)
    with (run_trace (RedisDelete <$> keys) (perform (RedisDelete k) w)).
  rewrite IH. destruct (decide (name = k)) as [->|Hne].
  - rewrite (decide_True (P := k ∈ k :: keys)) by by left.
    case_decide; [done|]. cbn. apply lookup_delete_eq.
  - case_decide as Hin.
    + by rewrite decide_True by by right.
    + rewrite decide_False by (by intros [?|?]%elem_of_cons).
      cbn. by rewrite lookup_delete_ne.
Qed.

(** What the restore of one family leaves in the cache: the keys the scan
    listed are gone, every other key is as the copy and the persist left
    it.  No rollback backup remains exactly when the one scan listed them
    all; the cursor is not looked at. *)
Lemma restore_redis_key_store H redis_key w name :
  store (restore_redis_key scan_reply H redis_key w).2 !! name
  = let w' := run_trace [RedisCopy (history_key redis_key H) redis_key;
                         RedisPersist redis_key] w in
    if decide (name ∈ (scan_reply (store w') 0 (rollback_backup_pattern redis_key) 100).2)
    then None else store w' !! name.
Proof.
  unfold restore_redis_key, redis_copy, redis_persist.
  rewrite bind_run, effect_run, bind_run, effect_run, bind_run. cbn [redis_scan].
  cbn zeta. cbn [run_trace foldl flip].
  destruct (scan_reply _ _ _ _) as [cursor keys]. unfold redis_delete.
  rewrite (for_each_effects RedisDelete). cbn [snd]. apply store_deletes.
Qed.

Lemma restore_redis_run H w :
  ∃ parts, restore_redis scan_reply H w = (Ok (), run_trace (concat parts) w)
           ∧ Forall2 (restore_trace H) redis_keys parts.
Proof.
  unfold restore_redis. generalize redis_keys as l. intros l. revert w.
  induction l as [|k l IH]; intros w; [by exists []|].
  cbn [for_each]. rewrite bind_run.
  destruct (restore_redis_key_run H k w) as (part & -> & Hpart).
  destruct (IH (run_trace part w)) as (parts & -> & Hparts).
  exists (part :: parts). cbn [concat]. rewrite run_trace_app. by split; [|constructor].
Qed.

Lemma restore_trace_writes H k part : restore_trace H k part → Forall is_redis_write part.
Proof.
  intros [deleted ->]. do 2 (constructor; [done|]). induction deleted; by constructor.
Qed.

Lemma restore_traces_write H l parts :
  Forall2 (restore_trace H) l parts → Forall is_redis_write (concat parts).
Proof.
  induction 1 as [|k part l parts Hp _ IH]; [constructor|].
  cbn [concat]. apply Forall_app. split; [by eapply restore_trace_writes|done].
Qed.

End restore.

(** ** The body of the [try] and the blocks around it *)


Lemma block_replay_rebuild get_value_id H d :
  block (replay (rebuild_statements get_value_id H d) d) = block d.
Proof.
  unfold rebuild_statements. generalize (select_mapping_snapshot H d) as snapshot.
  intros snapshot. cbn [replay foldl flip]. rewrite foldl_app. cbn [foldl flip].
  cbn [execute on_mapping_history block].
  assert (∀ stmts d', Forall (λ s, ∃ a b c k v, s = InsertMappingValue a b c k v) stmts →
                      block (foldl (flip execute) d' stmts) = block d') as Hins.
  { intros stmts. induction stmts as [|s stmts IH]; intros d' Hall; [done|].
    inversion_clear Hall as [|?? (a & b & c & k & v & ->) Hrest]. cbn [foldl flip].
    by rewrite IH. }
  rewrite Hins; [done|]. clear. induction snapshot as [|item snapshot IH]; [constructor|].
  change (insert_statements get_value_id (item :: snapshot))
    with (match mapping_history.value item with
          | Some value =>
              [InsertMappingValue (mapping_history.mapping_id item)
                 (mapping_history.key_id item)
                 (get_value_id (mapping_history.key_id item) value)
                 (mapping_history.key item) value]
          | None => []
          end ++ insert_statements get_value_id snapshot).
  destruct (mapping_history.value item); [constructor; [by eauto 10|done]|done].
Qed.

Section body.
Variable get_value_id : string → bytes → string.
Variable scan_reply : gmap string redis.entry → Z → string → Z → Z * list string.


(** The body, when it returns: the statements of the rebuild, then those of
    the walk, then the two deletions, then the cache writes. *)
Lemma revert_body_ok w w' :
  revert_body get_value_id scan_reply w = (Ok (), w') →
  ∃ H stmts parts,
    (last_backup_height scan_reply w).1 = Ok H
    ∧ w' = run_trace
             ((CursorExecute <$>
                 (rebuild_statements get_value_id H (db w) ++ stmts ++
                  [DeleteBlockAbove H; DeleteCommitteeHistoryAbove H])) ++ concat parts) w
    ∧ walk_summary (transactions_above H (db w)) stmts
    ∧ Forall2 (restore_trace H) redis_keys parts.
Proof.
  intros E. unfold revert_body in E.
  apply bind_ok in E as (H & w0 & E0 & E).
  pose proof (last_backup_height_world scan_reply w) as Hw. rewrite E0 in Hw. cbn in Hw. subst w0.
  rewrite bind_run, rebuild_mapping_value_run in E.
  apply bind_ok in E as ([] & w2 & E2 & E3).
  apply revert_blocks_ok in E2 as (stmts & -> & Hsum).
  destruct (restore_redis_run scan_reply H
              (run_trace (CursorExecute <$>
                            (stmts ++ [DeleteBlockAbove H; DeleteCommitteeHistoryAbove H]))
                 (run_trace (CursorExecute <$> rebuild_statements get_value_id H (db w)) w)))
    as (parts & E4 & Hparts).
  rewrite E4 in E3. injection E3 as <-.
  exists H, stmts, parts. split; [by rewrite E0|]. split; [|split; [|done]].
  - by rewrite run_trace_app, (fmap_app _ (rebuild_statements _ _ _)), run_trace_app.
  - unfold transactions_above in *.
    rewrite db_run_trace, omap_statement_fmap in Hsum.
    unfold get_full_block_range in *. by rewrite block_replay_rebuild in Hsum.
Qed.


(** The whole function around its body. *)
Lemma revert_to_last_backup_unfold w :
  revert_to_last_backup get_value_id scan_reply w =
  match revert_body get_value_id scan_reply
          (run_trace [PthreadSigmask SIG_BLOCK; ConnectionAcquired; TransactionBegin] w) with
  | (Ok _, w') =>
      (Ok (), run_trace [TransactionCommit; ConnectionReturned; PthreadSigmask SIG_UNBLOCK] w')
  | (Raise e, w') =>
      (Raise e,
       run_trace [TransactionRollback; ConnectionReturned]
         (with_db (db w) (run_trace [MessageCallback e; PthreadSigmask SIG_UNBLOCK] w')))
  end.
Proof.
  unfold revert_to_last_backup, pthread_sigmask.
  rewrite bind_run, effect_run, bind_run.
  unfold pool_connection, conn_transaction, try_except, revert_handler, message_callback,
    pthread_sigmask.
  cbn [run_trace foldl flip].
  destruct (revert_body _ _ _) as [[[]|e] w'].
  - by rewrite effect_run.
  - rewrite bind_run, effect_run, bind_run, effect_run. cbn [raise]. done.
Qed.

End body.

(** ** The snapshot query (util.py 74-79) *)

Lemma string_compare_trans a b c :
  String.compare a b = Lt → String.compare b c = Lt → String.compare a c = Lt.
Proof.
  intros H1 H2. apply OrderedTypeEx.String_as_OT.cmp_lt.
  apply OrderedTypeEx.String_as_OT.cmp_lt in H1, H2.
  by eapply OrderedTypeEx.String_as_OT.lt_trans.
Qed.

Lemma string_compare_eq a b : String.compare a b = Eq ↔ a = b.
Proof. apply OrderedTypeEx.String_as_OT.cmp_eq. Qed.

Lemma string_compare_gt a b : String.compare a b = Gt ↔ String.compare b a = Lt.
Proof. rewrite (String.compare_antisym a b). by destruct (String.compare b a). Qed.

Lemma key_lt_trans a b c : key_lt a b → key_lt b c → key_lt a c.
Proof.
  unfold key_lt. intros [?|[? ?]] [?|[? ?]]; try (left; lia).
  right. split; [lia|]. by eapply string_compare_trans.
Qed.

Lemma key_lt_irrefl a : ¬ key_lt a a.
Proof.
  unfold key_lt. intros [?|[_ E]]; [lia|].
  by rewrite (proj2 (string_compare_eq a.2 a.2)) in E.
Qed.

Lemma key_trichotomy (a b : Z * string) : key_lt a b ∨ a = b ∨ key_lt b a.
Proof.
  unfold key_lt. destruct a as [m k], b as [m' k']; cbn.
  destruct (Z.lt_trichotomy m m') as [?|[->|?]]; [by left; left| |by right; right; left].
  destruct (String.compare k k') eqn:E.
  - apply string_compare_eq in E as ->. by right; left.
  - left. by right.
  - apply string_compare_gt in E. right; right. by right.
Qed.

Lemma snapshot_order_spec a b :
  snapshot_order a b ↔
  key_lt (distinct_key a) (distinct_key b)
  ∨ (distinct_key a = distinct_key b ∧ mapping_history.id b ≤ mapping_history.id a).
Proof.
  unfold snapshot_order, snapshot_compare, key_lt, distinct_key. cbn.
  pose proof (string_compare_eq (mapping_history.key_id a) (mapping_history.key_id b)) as Hk.
  destruct (Z.compare_spec (mapping_history.mapping_id a) (mapping_history.mapping_id b));
    [destruct (String.compare _ _);
       [destruct (Z.compare_spec (mapping_history.id b) (mapping_history.id a))|..]|..];
    (split; [intros Hgt|intros Hor; try done]).
  all: try (right; split; [f_equal; [done|by apply Hk]|lia]).
  all: try (left; right; done).
  all: try (left; left; done).
  all: destruct Hor as [[?|[? ?]]|[[= ? Ek] ?]]; try lia; try done.
  all: by apply Hk in Ek.
Qed.

Global Instance snapshot_order_total : Total snapshot_order.
Proof.
  intros a b. rewrite !snapshot_order_spec.
  destruct (key_trichotomy (distinct_key a) (distinct_key b)) as [?|[E|?]]; [by left; left| |by right; left].
  rewrite E. destruct (Z.le_ge_cases (mapping_history.id b) (mapping_history.id a)).
  - left. by right.
  - right. by right.
Qed.

Global Instance snapshot_order_trans : Transitive snapshot_order.
Proof.
  intros a b c. rewrite !snapshot_order_spec.
  intros [?|[E1 ?]] [?|[E2 ?]].
  - left. by eapply key_lt_trans.
  - left. by rewrite <- E2.
  - left. by rewrite E1.
  - right. split; [congruence|lia].
Qed.

(** Along a sorted list, [distinct_on_after] keeps the first row of every
    run of a key other than [previous]. *)
Lemma distinct_on_after_spec previous rows :
  StronglySorted snapshot_order rows →
  (∀ r, r ∈ rows → previous = distinct_key r ∨ key_lt previous (distinct_key r)) →
  (∀ r, r ∈ distinct_on_after previous rows →
        r ∈ rows ∧ distinct_key r ≠ previous ∧
        ∀ r', r' ∈ rows → distinct_key r' = distinct_key r →
              mapping_history.id r' ≤ mapping_history.id r)
  ∧ (∀ r', r' ∈ rows → distinct_key r' ≠ previous →
           ∃ r, r ∈ distinct_on_after previous rows ∧ distinct_key r = distinct_key r')
  ∧ NoDup (distinct_key <$> distinct_on_after previous rows).
Proof.
  intros Hsorted. revert previous.
  induction Hsorted as [|r rows Hrows IH Hr]; intros previous Hprev.
  { cbn. split; [by intros ? ?%elem_of_nil|]. split; [by intros ? ?%elem_of_nil|constructor]. }
  rewrite Forall_forall in Hr.
  assert (∀ x, x ∈ rows → distinct_key r = distinct_key x ∨ key_lt (distinct_key r) (distinct_key x))
    as Hnext.
  { intros x Hx. apply Hr, snapshot_order_spec in Hx as [?|[? _]]; [by right|by left]. }
  cbn [distinct_on_after]. case_decide as Hk.
  - destruct (IH previous) as (Ha & Hb & Hc); [intros; apply Hprev; by right|].
    split; [|split; [|done]].
    + intros x Hx. destruct (Ha x Hx) as (Hin & Hne & Hmax).
      split; [by right|]. split; [done|].
      intros r' [->|Hr']%elem_of_cons E; [congruence|by apply Hmax].
    + intros r' [->|Hr']%elem_of_cons Hne; [done|by apply Hb].
  - destruct (IH (distinct_key r) Hnext) as (Ha & Hb & Hc).
    split; [|split].
    + intros x [->|Hx]%elem_of_cons.
      * split; [by left|]. split; [done|].
        intros r' [->|Hr']%elem_of_cons E; [lia|].
        apply Hr, snapshot_order_spec in Hr' as [Hlt|[_ ?]]; [|done].
        rewrite E in Hlt. by apply key_lt_irrefl in Hlt.
      * destruct (Ha x Hx) as (Hin & Hne & Hmax). split; [by right|]. split.
        { intros <-. destruct (Hnext x Hin) as [?|Hlt]; [done|].
          destruct (Hprev r) as [?|Hlt']; [by left|done|].
          apply (key_lt_irrefl (distinct_key x)). by eapply key_lt_trans. }
        intros r' [->|Hr']%elem_of_cons E; [congruence|by apply Hmax].
    + intros r' [->|Hr']%elem_of_cons Hne.
      * exists r. split; [by left|done].
      * destruct (decide (distinct_key r' = distinct_key r)) as [E|Hne'].
        { exists r. split; [by left|done]. }
        destruct (Hb r' Hr' Hne') as (x & ? & ?). exists x. split; [by right|done].
    + cbn [fmap list_fmap]. constructor; [|done].
      intros (x & E & Hx)%list_elem_of_fmap. destruct (Ha x Hx) as (_ & Hne & _). congruence.
Qed.

Lemma distinct_on_spec rows :
  StronglySorted snapshot_order rows →
  (∀ r, r ∈ distinct_on rows →
        r ∈ rows ∧ ∀ r', r' ∈ rows → distinct_key r' = distinct_key r →
                         mapping_history.id r' ≤ mapping_history.id r)
  ∧ (∀ r', r' ∈ rows → ∃ r, r ∈ distinct_on rows ∧ distinct_key r = distinct_key r')
  ∧ NoDup (distinct_key <$> distinct_on rows).
Proof.
  intros Hsorted. destruct rows as [|r rows].
  { cbn. split; [by intros ? ?%elem_of_nil|]. split; [by intros ? ?%elem_of_nil|constructor]. }
  apply StronglySorted_inv in Hsorted as [Hrows Hr]. rewrite Forall_forall in Hr.
  destruct (distinct_on_after_spec (distinct_key r) rows Hrows) as (Ha & Hb & Hc).
  { intros x Hx. apply Hr, snapshot_order_spec in Hx as [?|[? _]]; [by right|by left]. }
  cbn [distinct_on]. split; [|split].
  - intros x [->|Hx]%elem_of_cons.
    + split; [by left|]. intros r' [->|Hr']%elem_of_cons E; [lia|].
      apply Hr, snapshot_order_spec in Hr' as [Hlt|[_ ?]]; [|done].
      rewrite E in Hlt. by apply key_lt_irrefl in Hlt.
    + destruct (Ha x Hx) as (Hin & Hne & Hmax). split; [by right|].
      intros r' [->|Hr']%elem_of_cons E; [congruence|by apply Hmax].
  - intros r' [->|Hr']%elem_of_cons.
    + exists r. split; [by left|done].
    + destruct (decide (distinct_key r' = distinct_key r)) as [E|Hne'].
      { exists r. split; [by left|done]. }
      destruct (Hb r' Hr' Hne') as (x & ? & ?). exists x. split; [by right|done].
  - cbn [fmap list_fmap]. constructor; [|done].
    intros (x & E & Hx)%list_elem_of_fmap. destruct (Ha x Hx) as (_ & Hne & _). congruence.
Qed.

(** The query returns, for every key with an entry at or below the height,
    one entry of greatest id, and nothing else. *)
Lemma select_mapping_snapshot_spec H d :
  (∀ r, r ∈ select_mapping_snapshot H d →
        r ∈ mapping_history d ∧ mapping_history.height r ≤ H ∧
        ∀ r', r' ∈ mapping_history d → mapping_history.height r' ≤ H →
              distinct_key r' = distinct_key r →
              mapping_history.id r' ≤ mapping_history.id r)
  ∧ (∀ r', r' ∈ mapping_history d → mapping_history.height r' ≤ H →
           ∃ r, r ∈ select_mapping_snapshot H d ∧ distinct_key r = distinct_key r')
  ∧ NoDup (distinct_key <$> select_mapping_snapshot H d).
Proof.
  unfold select_mapping_snapshot.
  set (rows := merge_sort snapshot_order _).
  assert (∀ r, r ∈ rows ↔ r ∈ mapping_history d ∧ mapping_history.height r ≤ H) as Hrows.
  { intros r. unfold rows. rewrite merge_sort_Permutation. rewrite list_elem_of_filter. tauto. }
  destruct (distinct_on_spec rows) as (Ha & Hb & Hc).
  { apply StronglySorted_merge_sort; apply _. }
  split; [|split; [|done]].
  - intros r Hr. destruct (Ha r Hr) as [Hin Hmax]. apply Hrows in Hin as [? ?].
    split; [done|]. split; [done|]. intros r' ? ? ?. apply Hmax; [|done]. by apply Hrows.
  - intros r' ? ?. apply Hb. by apply Hrows.
Qed.

(** ** Replaying statements *)

Lemma statements_redis t : Forall is_redis_write t → statements t = [].
Proof.
  unfold statements. induction 1 as [|e t He _ IH]; [done|].
  destruct e; try done; exact IH.
Qed.

Lemma execute_ledger s d :
  ledger_statement s →
  mapping_value (execute s d) = mapping_value d
  ∧ mapping_history (execute s d) = mapping_history d.
Proof. by destruct s. Qed.

Lemma replay_ledger stmts d :
  Forall ledger_statement stmts →
  mapping_value (replay stmts d) = mapping_value d
  ∧ mapping_history (replay stmts d) = mapping_history d.
Proof.
  intros Hall. revert d. induction Hall as [|s stmts Hs _ IH]; intros d; [done|].
  change (replay (s :: stmts) d) with (replay stmts (execute s d)).
  destruct (IH (execute s d)) as [-> ->]. by apply execute_ledger.
Qed.

Lemma insert_statements_cons get_value_id item snapshot :
  insert_statements get_value_id (item :: snapshot)
  = match mapping_history.value item with
    | Some value =>
        [InsertMappingValue (mapping_history.mapping_id item) (mapping_history.key_id item)
           (get_value_id (mapping_history.key_id item) value)
           (mapping_history.key item) value]
    | None => []
    end ++ insert_statements get_value_id snapshot.
Proof. reflexivity. Qed.

Lemma snapshot_rows_cons get_value_id item snapshot :
  snapshot_rows get_value_id (item :: snapshot)
  = match mapping_history.value item with
    | Some value => [mapping_value_of get_value_id item value]
    | None => []
    end ++ snapshot_rows get_value_id snapshot.
Proof. reflexivity. Qed.

Lemma replay_inserts get_value_id snapshot d :
  mapping_value (replay (insert_statements get_value_id snapshot) d)
  = mapping_value d ++ snapshot_rows get_value_id snapshot
  ∧ mapping_history (replay (insert_statements get_value_id snapshot) d) = mapping_history d.
Proof.
  revert d. induction snapshot as [|item snapshot IH]; intros d.
  { cbn. by rewrite app_nil_r. }
  rewrite insert_statements_cons, snapshot_rows_cons, replay_app.
  destruct (mapping_history.value item) as [value|].
  - destruct (IH (replay [InsertMappingValue (mapping_history.mapping_id item)
                            (mapping_history.key_id item)
                            (get_value_id (mapping_history.key_id item) value)
                            (mapping_history.key item) value] d)) as [-> ->].
    cbn. by rewrite <- app_assoc.
  - apply IH.
Qed.

(** After the rebuild, [mapping_value] holds the rows of the snapshot and
    [mapping_history] nothing above the height. *)
Lemma replay_rebuild get_value_id H d :
  mapping_value (replay (rebuild_statements get_value_id H d) d)
  = snapshot_rows get_value_id (select_mapping_snapshot H d)
  ∧ mapping_history (replay (rebuild_statements get_value_id H d) d)
    = filter (λ r, ¬ mapping_history.height r > H) (mapping_history d).
Proof.
  unfold rebuild_statements.
  change (replay (TruncateMappingValue :: ?l) d) with (replay l (execute TruncateMappingValue d)).
  rewrite replay_app.
  destruct (replay_inserts get_value_id (select_mapping_snapshot H d)
              (execute TruncateMappingValue d)) as [Hv Hh].
  set (d1 := replay (insert_statements get_value_id (select_mapping_snapshot H d))
               (execute TruncateMappingValue d)) in *.
  change (replay [DeleteMappingHistoryAbove H] d1)
    with (execute (DeleteMappingHistoryAbove H) d1).
  cbn [execute on_mapping_history mapping_value mapping_history].
  by rewrite Hv, Hh.
Qed.

Lemma program_replay stmts d p :
  p ∈ program (replay stmts d) ↔
  p ∈ program d ∧ program.program_id p ∉ deleted_programs stmts.
Proof.
  revert d. induction stmts as [|s stmts IH]; intros d.
  { cbn. split; [intros ?; split; [done|by intros ?%elem_of_nil]|by intros [? _]]. }
  change (replay (s :: stmts) d) with (replay stmts (execute s d)). rewrite IH.
  destruct s; cbn [execute program on_mapping_value on_mapping_history on_transaction
                   on_program on_mapping on_program_function on_leaderboard on_block
                   on_committee_history]; try done.
  change (deleted_programs (DeleteProgram program_id :: stmts))
    with (program_id :: deleted_programs stmts).
  rewrite list_elem_of_filter, not_elem_of_cons. tauto.
Qed.

Lemma mapping_replay stmts d m :
  m ∈ mapping (replay stmts d) ↔
  m ∈ mapping d ∧ mapping.program_id m ∉ deleted_mappings stmts.
Proof.
  revert d. induction stmts as [|s stmts IH]; intros d.
  { cbn. split; [intros ?; split; [done|by intros ?%elem_of_nil]|by intros [? _]]. }
  change (replay (s :: stmts) d) with (replay stmts (execute s d)). rewrite IH.
  destruct s; cbn [execute mapping on_mapping_value on_mapping_history on_transaction
                   on_program on_mapping on_program_function on_leaderboard on_block
                   on_committee_history]; try done.
  change (deleted_mappings (DeleteMapping program_id :: stmts))
    with (program_id :: deleted_mappings stmts).
  rewrite list_elem_of_filter, not_elem_of_cons. tauto.
Qed.


(** *** The rows of a snapshot *)

Lemma elem_of_snapshot_rows get_value_id snapshot r :
  r ∈ snapshot_rows get_value_id snapshot ↔
  ∃ e value, e ∈ snapshot ∧ mapping_history.value e = Some value
             ∧ r = mapping_value_of get_value_id e value.
Proof.
  unfold snapshot_rows. rewrite list_elem_of_bind. split.
  - intros (e & Hr & He). destruct (mapping_history.value e) as [value|] eqn:Ev.
    + apply list_elem_of_singleton in Hr. by exists e, value.
    + by apply elem_of_nil in Hr.
  - intros (e & value & He & Ev & ->). exists e. rewrite Ev. split; [by left|done].
Qed.

Lemma snapshot_rows_other get_value_id snapshot k :
  k ∉ distinct_key <$> snapshot →
  filter (λ r, value_key r = k) (snapshot_rows get_value_id snapshot) = [].
Proof.
  induction snapshot as [|item snapshot IH]; [done|].
  rewrite fmap_cons, not_elem_of_cons. intros [Hne Hk].
  rewrite snapshot_rows_cons, filter_app, (IH Hk), app_nil_r.
  destruct (mapping_history.value item); [|done].
  rewrite filter_cons, decide_False; [done|]. intros E. by apply Hne.
Qed.

Lemma snapshot_rows_filter get_value_id snapshot e :
  NoDup (distinct_key <$> snapshot) → e ∈ snapshot →
  filter (λ r, value_key r = distinct_key e) (snapshot_rows get_value_id snapshot)
  = match mapping_history.value e with
    | Some value => [mapping_value_of get_value_id e value]
    | None => []
    end.
Proof.
  induction snapshot as [|item snapshot IH]; [by intros _ ?%elem_of_nil|].
  rewrite fmap_cons, NoDup_cons. intros [Hitem Hnodup] [->|He]%elem_of_cons.
  - rewrite snapshot_rows_cons, filter_app, (snapshot_rows_other _ _ _ Hitem), app_nil_r.
    destruct (mapping_history.value item); [|done].
    by rewrite filter_cons, decide_True.
  - rewrite snapshot_rows_cons, filter_app, (IH Hnodup He).
    assert (distinct_key item ≠ distinct_key e) as Hne.
    { intros E. apply Hitem. rewrite E. by apply list_elem_of_fmap_2. }
    destruct (mapping_history.value item); [|done].
    rewrite filter_cons, decide_False; [done|]. done.
Qed.







(** ** The revert as a whole *)

Section revert_facts.
Variable get_value_id : string → bytes → string.
Variable scan_reply : gmap string redis.entry → Z → string → Z → Z * list string.

(** A revert that returns has performed, in this order: the mask, the
    connection, the begin; the statements of the rebuild, of the walk and
    the two deletions; the cache writes; the commit, the return of the
    connection, the unmask. *)
Lemma revert_ok w w' :
  revert_to_last_backup get_value_id scan_reply w = (Ok (), w') →
  ∃ H stmts parts,
    (last_backup_height scan_reply w).1 = Ok H
    ∧ w' = run_trace
             ([PthreadSigmask SIG_BLOCK; ConnectionAcquired; TransactionBegin] ++
              (CursorExecute <$>
                 (rebuild_statements get_value_id H (db w) ++ stmts ++
                  [DeleteBlockAbove H; DeleteCommitteeHistoryAbove H])) ++
              concat parts ++
              [TransactionCommit; ConnectionReturned; PthreadSigmask SIG_UNBLOCK]) w
    ∧ walk_summary (transactions_above H (db w)) stmts
    ∧ Forall2 (restore_trace H) redis_keys parts.
Proof.
  rewrite revert_to_last_backup_unfold.
  set (w1 := run_trace [PthreadSigmask SIG_BLOCK; ConnectionAcquired; TransactionBegin] w).
  destruct (revert_body get_value_id scan_reply w1) as [[[]|e] w2] eqn:E; [|done]. intros [= <-].
  apply revert_body_ok in E as (H & stmts & parts & EH & -> & Hsum & Hparts).
  exists H, stmts, parts. split; [|split; [|done]].
  - rewrite <- EH. by apply last_backup_height_store.
  - by rewrite !run_trace_app.
Qed.

Lemma revert_ok_db w w' :
  revert_to_last_backup get_value_id scan_reply w = (Ok (), w') →
  ∃ H stmts,
    (last_backup_height scan_reply w).1 = Ok H
    ∧ walk_summary (transactions_above H (db w)) stmts
    ∧ db w' = replay (rebuild_statements get_value_id H (db w) ++ stmts ++
                      [DeleteBlockAbove H; DeleteCommitteeHistoryAbove H]) (db w).
Proof.
  intros (H & stmts & parts & EH & -> & Hsum & Hparts)%revert_ok.
  exists H, stmts. split; [done|]. split; [done|].
  rewrite db_run_trace, !statements_app, omap_statement_fmap.
  rewrite (statements_redis (concat parts)) by by eapply restore_traces_write.
  cbn [statements omap list_omap app]. by rewrite app_nil_r.
Qed.

End revert_facts.

(** ** The claims about the revert *)


Section claims.
Variable get_value_id : string → bytes → string.
Variable scan_reply : gmap string redis.entry → Z → string → Z → Z * list string.



(** C3.  After a revert that returns, with [H] the height of the last
    backup: for every [(mapping_id, key_id)] whose entries at or below [H]
    have one of greatest id, [mapping_value] holds for that key exactly
    the row made of that entry's value, and no row when the value is
    absent; every row of [mapping_value] is made of an entry at or below
    [H] that no entry of its key at or below [H] exceeds in id, so a key
    without such an entry has no row; and [mapping_history] is what it was
    without the entries above [H]. *)
Theorem mapping_value_rebuilt w w' :
  revert_to_last_backup get_value_id scan_reply w = (Ok (), w') →
  ∃ H,
    (last_backup_height scan_reply w).1 = Ok H
    ∧ (∀ e, latest_entry H (mapping_history (db w)) e →
            filter (λ r, value_key r = distinct_key e) (mapping_value (db w'))
            = match mapping_history.value e with
              | Some value => [mapping_value_of get_value_id e value]
              | None => []
              end)
    ∧ (∀ r, r ∈ mapping_value (db w') →
            ∃ e value,
              e ∈ mapping_history (db w) ∧ mapping_history.height e ≤ H
              ∧ (∀ e', e' ∈ mapping_history (db w) → mapping_history.height e' ≤ H →
                       distinct_key e' = distinct_key e →
                       mapping_history.id e' ≤ mapping_history.id e)
              ∧ mapping_history.value e = Some value
              ∧ r = mapping_value_of get_value_id e value)
    ∧ mapping_history (db w')
      = filter (λ e, ¬ mapping_history.height e > H) (mapping_history (db w))
    ∧ Forall (λ e, mapping_history.height e ≤ H) (mapping_history (db w')).
Proof.
  intros (H & stmts & EH & Hsum & Edb)%revert_ok_db. exists H. split; [done|].
  assert (mapping_value (db w')
          = snapshot_rows get_value_id (select_mapping_snapshot H (db w))
          ∧ mapping_history (db w')
            = filter (λ e, ¬ mapping_history.height e > H) (mapping_history (db w)))
    as [Ev Eh].
  { rewrite Edb, replay_app.
    destruct (replay_ledger (stmts ++ [DeleteBlockAbove H; DeleteCommitteeHistoryAbove H])
                (replay (rebuild_statements get_value_id H (db w)) (db w))) as [-> ->].
    - apply Forall_app. split; [apply Hsum|by repeat constructor].
    - apply replay_rebuild. }
  destruct (select_mapping_snapshot_spec H (db w)) as (Ha & Hb & Hc).
  rewrite Ev, Eh. split; [|split; [|split; [done|]]].
  - intros e (He & HeH & Hlatest). apply snapshot_rows_filter; [done|].
    destruct (Hb e He HeH) as (r & Hr & Ekey).
    destruct (Ha r Hr) as (Hrin & HrH & Hmax).
    destruct (decide (r = e)) as [->|Hne]; [done|].
    specialize (Hlatest r Hrin Ekey HrH Hne).
    specialize (Hmax e He HeH (eq_sym Ekey)). lia.
  - intros r (e & value & He & Evalue & ->)%elem_of_snapshot_rows.
    destruct (Ha e He) as (Hin & HeH & Hmax). by exists e, value.
  - apply Forall_forall. intros e [? _]%list_elem_of_filter. lia.
Qed.



(** C7.  After a revert that returns, with [H] the height of the last
    backup: for every transaction above [H] that is a deployment, the
    transition set is the fee transition alone, and neither a program row
    nor a mapping row with the deployed program id is left. *)
Theorem deployment_removed w w' :
  revert_to_last_backup get_value_id scan_reply w = (Ok (), w') →
  ∃ H,
    (last_backup_height scan_reply w).1 = Ok H
    ∧ ∀ ct id deployment fee,
        ct ∈ transactions_above H (db w) →
        Ledger.transaction ct = Ledger.DeployTransaction id deployment fee →
        (∀ w0, ∃ w1, reverted_transitions ct w0 = (Ok [Ledger.transition fee], w1))
        ∧ (∀ p, p ∈ program (db w') → program.program_id p ≠ Ledger.program deployment)
        ∧ (∀ m, m ∈ mapping (db w') → mapping.program_id m ≠ Ledger.program deployment).
Proof.
  intros (H & stmts & EH & (Hl & Hc & Hp & Hm) & Edb)%revert_ok_db.
  exists H. split; [done|]. intros ct id deployment fee Hct Et.
  assert (Ledger.program deployment ∈ transactions_above H (db w) ≫= deployed_program) as Hin.
  { apply list_elem_of_bind. exists ct. split; [|done].
    unfold deployed_program. rewrite Et. by left. }
  split; [|split].
  - intros w0. unfold reverted_transitions. rewrite Et. by eexists.
  - intros p Hp' E. rewrite Edb in Hp'. apply program_replay in Hp' as [_ Hnot].
    apply Hnot. rewrite !deleted_programs_app, Hp, E.
    apply elem_of_app. right. apply elem_of_app. by left.
  - intros m Hm' E. rewrite Edb in Hm'. apply mapping_replay in Hm' as [_ Hnot].
    apply Hnot. rewrite !deleted_mappings_app, Hm, E.
    apply elem_of_app. right. apply elem_of_app. by left.
Qed.

End claims.

(** C6.  For a fee transaction: wrapped in a rejected deployment, the
    transition set is the fee transition alone; wrapped in a rejected
    execution whose payload is a rejected execution, the transitions of
    that execution followed by the fee transition; wrapped in a rejected
    execution with another payload, the failure is
    [InvalidRejectedPayload]; not wrapped in a rejected variant, the
    failure is [InvalidTransactionShape].  Nothing is written on the
    way. *)
Theorem fee_transition_set id fee rejected execution w :
  reverted_transitions (Ledger.RejectedDeploy (Ledger.FeeTransaction id fee) rejected) w
  = (Ok [Ledger.transition fee], w)
  ∧ reverted_transitions
      (Ledger.RejectedExecute (Ledger.FeeTransaction id fee)
         (Ledger.RejectedExecution execution)) w
    = (Ok (Ledger.transitions execution ++ [Ledger.transition fee]), w)
  ∧ reverted_transitions
      (Ledger.RejectedExecute (Ledger.FeeTransaction id fee) Ledger.RejectedDeployment) w
    = (Raise InvalidRejectedPayload, w)
  ∧ reverted_transitions (Ledger.Accepted (Ledger.FeeTransaction id fee)) w
    = (Raise InvalidTransactionShape, w).
Proof. done. Qed.

(** C2, as amended.  For a rejected deployment and for a rejected
    execution alike, the original transaction id is looked up under the
    transaction's id.  No row: [MissingTransactionRecord].  A row with an
    original id: every row of that transaction id takes the original id,
    the type "Deploy" (rejected deployment) or "Execute" (rejected
    execution), and loses both its original id and its confirmation
    linkage.  A row without an original id: nothing is executed, the row
    keeps its confirmation linkage. *)
Theorem rejected_transaction_reverted t rejected w :
  rejection_undone (Ledger.RejectedDeploy t rejected) "Deploy" w
  ∧ rejection_undone (Ledger.RejectedExecute t rejected) "Execute" w.
Proof.
  unfold rejection_undone, revert_to_unconfirmed. cbn [Ledger.transaction].
  rewrite !bind_run. cbn [cur_fetch].
  destruct (select_original_transaction_id (Ledger.id t) (db w)) as [[original|]|];
    (split; [|]); try done; by eexists.
Qed.

(** The lookup answers [None] exactly when no row carries the id. *)
Lemma select_original_transaction_id_none transaction_id d :
  select_original_transaction_id transaction_id d = None ↔
  ∀ r, r ∈ transaction d → transaction.transaction_id r ≠ transaction_id.
Proof.
  unfold select_original_transaction_id. rewrite fmap_None, head_None. split.
  - intros E r Hr Hid.
    assert (r ∈ filter (λ r, transaction.transaction_id r = transaction_id) (transaction d))
      as Hin by by apply list_elem_of_filter.
    rewrite E in Hin. by apply elem_of_nil in Hin.
  - intros Hall. apply elem_of_nil_inv. intros r [Hid Hr]%list_elem_of_filter.
    by apply (Hall r).
Qed.

(** ** The claims on the sample worlds *)

(** The locator on the sample world. *)
Lemma sample_last_backup_height :
  (last_backup_height scan_whole_table sample_world).1 = Ok 90.
Proof. vm_compute. reflexivity. Qed.



(** C2 as stated fails on [unrecorded_world]: the row of the rejected
    transaction has no original id; the step executes nothing; and after
    the whole revert, which returns, the row still carries its
    confirmation linkage. *)
Lemma unrecorded_rejection_keeps_linkage :
  select_original_transaction_id "tx-fee-1" (db unrecorded_world) = Some None
  ∧ revert_to_unconfirmed rejected_fee unrecorded_world = (Ok (), unrecorded_world)
  ∧ (revert_to_last_backup sample_get_value_id scan_whole_table unrecorded_world).1 = Ok ()
  ∧ transaction
      (db (revert_to_last_backup sample_get_value_id scan_whole_table unrecorded_world).2)
    = [ {| transaction.transaction_id := "tx-fee-1";
           transaction.original_transaction_id := None;
           transaction.confimed_transaction_id := Some 2;
           transaction.type := "Fee" |} ].
Proof. split; [|split; [|split]]; vm_compute; reflexivity. Qed.

(** C3 on the sample world: the key [(1, k1)] has entries 1 and 2 at or
    below height 90 and entry 3 above; [mapping_value] holds the value of
    entry 2. *)
Lemma mapping_value_rebuilt_witness :
  revert_to_last_backup sample_get_value_id scan_whole_table sample_world
  = (Ok (), sample_revert.2)
  ∧ filter (λ r, value_key r = (1, "k1")) (mapping_value (db sample_revert.2))
    = [ mapping_value_of sample_get_value_id
          (history_row 2 1 "k1" (Some [Byte.x02; Byte.x03]) 90) [Byte.x02; Byte.x03] ].
Proof.
  split; [vm_compute; reflexivity|].
  destruct (mapping_value_rebuilt sample_get_value_id scan_whole_table sample_world
              sample_revert.2) as (H & EH & Hlatest & _).
  { vm_compute. reflexivity. }
  assert (H = 90) as -> by (rewrite sample_last_backup_height in EH; congruence).
  clear EH.
  exact (Hlatest (history_row 2 1 "k1" (Some [Byte.x02; Byte.x03]) 90)
           ltac:(split; [|split];
                 [ vm_compute; apply list_elem_of_In; cbn; tauto
                 | vm_compute; discriminate
                 | intros e' He' Ekey He'H Hne;
                   apply list_elem_of_In in He';
                   change (In e' [ history_row 1 1 "k1" (Some [Byte.x01]) 85;
                                   history_row 2 1 "k1" (Some [Byte.x02; Byte.x03]) 90;
                                   history_row 3 1 "k1" None 95;
                                   history_row 4 1 "k2" (Some [Byte.x04]) 88;
                                   history_row 5 1 "k2" None 89;
                                   history_row 6 2 "k1" (Some [Byte.x05]) 96 ]) in He';
                   cbn [In] in He';
                   destruct He' as [<-|[<-|[<-|[<-|[<-|[<-|[]]]]]]];
                   first [ done | by vm_compute | by vm_compute in He'H
                         | by vm_compute in Ekey ] ])).
Defined.




(** C7 on the sample world: block 95 deploys [p.aleo]; after the revert no
    program row and no mapping row carries that id. *)
Lemma deployment_removed_witness :
  revert_to_last_backup sample_get_value_id scan_whole_table sample_world
  = (Ok (), sample_revert.2)
  ∧ (∀ p, p ∈ program (db sample_revert.2) → program.program_id p ≠ "p.aleo")
  ∧ (∀ m, m ∈ mapping (db sample_revert.2) → mapping.program_id m ≠ "p.aleo").
Proof.
  split; [vm_compute; reflexivity|].
  destruct (deployment_removed sample_get_value_id scan_whole_table sample_world
              sample_revert.2) as (H & EH & Hdeploy).
  { vm_compute. reflexivity. }
  assert (H = 90) as -> by (rewrite sample_last_backup_height in EH; congruence).
  clear EH.
  destruct (Hdeploy (Ledger.Accepted deploy_p) "tx-deploy" {| Ledger.program := "p.aleo" |}
              fee_public) as (_ & Hp & Hm).
  - vm_compute. apply list_elem_of_In. cbn. tauto.
  - reflexivity.
  - done.
Defined.

(** C9 fails on [paged_world] behind the paging server: the first scan
    lists the only snapshot of the first family with cursor 0, the revert
    returns, and the rollback backup of [address_transfer_in] is still in
    the cache: by the time that family is restored the table holds 104
    keys, the scan for its rollback backups answers cursor 100 and no key,
    and util.py 196 drops the cursor. *)
Lemma rollback_backup_left_behind :
  scan_by_page (store paged_world) 0 (history_pattern "credits.aleo:bonded") 100
  = (0, ["credits.aleo:bonded:history:90"])
  ∧ (revert_to_last_backup sample_get_value_id scan_by_page paged_world).1 = Ok ()
  ∧ store (revert_to_last_backup sample_get_value_id scan_by_page paged_world).2
    !! "address_transfer_in:rollback_backup:95" = Some live_entry
  ∧ scan_by_page (store (revert_to_last_backup sample_get_value_id scan_by_page paged_world).2)
      0 (rollback_backup_pattern "address_transfer_in") 100 = (100, []).
Proof. repeat split; vm_compute; reflexivity. Qed.
